(** * preprocess_msn: Messenger Plus! chat logs to conversation JSON

    A shallow embedding of [src/preprocess_msn.py] and the properties of
    its name normalisation, participant map, speaker attribution, noise
    filter and chunked output.

    Python strings are sequences of Unicode code points, and the program
    depends on that: its patterns mention U+2014, its month table has
    accented letters, and [str.lower] is not a per-byte operation.  A
    string is therefore a list of code points.  The character tables of
    the interpreter (white space, alphanumerics, decimal digits, the
    lower-case mapping) are not part of the repository; they are the
    fields of the class [Unicode], and every general theorem holds for any
    tables.  The instance [latin1] gives CPython's tables on U+0000..U+00FF,
    U+0130 and U+0307 and is used to run the code on concrete inputs. *)

From Stdlib Require Import List NArith Bool Arith Lia.
From Stdlib Require Ascii String DecimalNat.
Import ListNotations String.StringSyntax.
Delimit Scope string_scope with string.

Set Implicit Arguments.

(** ** Python strings *)

Definition char := N.
Definition str := list char.

(** An ASCII literal as a string of code points. *)
Definition lit (s : String.string) : str :=
  map Ascii.N_of_ascii (String.list_ascii_of_string s).
Arguments lit s%_string.

Definition chr_eqb (a b : char) : bool := N.eqb a b.

Fixpoint str_eqb (a b : str) : bool :=
  match a, b with
  | [], [] => true
  | x :: a', y :: b' => chr_eqb x y && str_eqb a' b'
  | _, _ => false
  end.

(** Truth value of a string: [if s:] holds of the non-empty ones. *)
Definition truthy (s : str) : bool :=
  match s with [] => false | _ :: _ => true end.

(** [s.startswith(p)] *)
Fixpoint startswith (s p : str) : bool :=
  match p with
  | [] => true
  | a :: p' =>
      match s with
      | [] => false
      | b :: s' => chr_eqb a b && startswith s' p'
      end
  end.

(** [needle in hay] for strings: [needle] occurs somewhere in [hay]. *)
Fixpoint str_in (needle hay : str) : bool :=
  startswith hay needle
  || match hay with
     | [] => false
     | _ :: hay' => str_in needle hay'
     end.

Fixpoint dropwhile (p : char -> bool) (s : str) : str :=
  match s with
  | [] => []
  | c :: s' => if p c then dropwhile p s' else s
  end.

(** [s.lstrip(..)], [s.rstrip(..)] and [s.strip(..)] for a set of
    characters given by its membership test. *)
Definition lstrip_of (p : char -> bool) (s : str) : str := dropwhile p s.
Definition rstrip_of (p : char -> bool) (s : str) : str :=
  rev (dropwhile p (rev s)).
Definition strip_of (p : char -> bool) (s : str) : str :=
  rstrip_of p (lstrip_of p s).

(** [s.replace(old, new)]: the occurrences of [old] are found from the
    left and do not overlap.  [skip] counts the characters of an occurrence
    still to be passed over. *)
Fixpoint replace_go (old new s : str) (skip : nat) : str :=
  match s with
  | [] => []
  | c :: s' =>
      match skip with
      | S n => replace_go old new s' n
      | O =>
          if startswith s old
          then new ++ replace_go old new s' (length old - 1)
          else c :: replace_go old new s' 0
      end
  end.

Definition replace (old new s : str) : str :=
  match old with
  | [] => new ++ flat_map (fun c => c :: new) s
  | _ :: _ => replace_go old new s 0
  end.

(** [s.split(sep)] for a one-character separator: every occurrence
    splits, empty pieces are kept, and the result is never empty. *)
Fixpoint split (sep : char) (s : str) : list str :=
  match s with
  | [] => [[]]
  | c :: s' =>
      if chr_eqb c sep then [] :: split sep s'
      else match split sep s' with
           | w :: ws => (c :: w) :: ws
           | [] => [[c]]
           end
  end.

(** ** The interpreter's character tables *)

Class Unicode := {
  isspace : char -> bool;          (* Py_UNICODE_ISSPACE *)
  isalnum : char -> bool;          (* Py_UNICODE_ISALNUM *)
  isdecimal : char -> bool;        (* Py_UNICODE_ISDECIMAL *)
  tolower_full : char -> char * str;
    (* the full lower-case mapping of a code point: one code point, and
       possibly more after it *)
  iscased : char -> bool;
  iscaseignorable : char -> bool
}.

(** The lower-case mapping of one code point, as a string. *)
Definition tolower {U : Unicode} (c : char) : str :=
  fst (tolower_full c) :: snd (tolower_full c).

Definition SIGMA : char := 931%N.        (* U+03A3 *)
Definition FINAL_SIGMA : char := 962%N.  (* U+03C2 *)
Definition SMALL_SIGMA : char := 963%N.  (* U+03C3 *)

Section Strings.
Context {U : Unicode}.

(** [s.strip()] *)
Definition strip (s : str) : str := strip_of isspace s.

(** [s.lower()].  Each code point is replaced by its lower-case mapping;
    the capital sigma alone depends on its neighbours.  [before] holds the
    characters already passed, nearest first. *)
Definition final_sigma (before after : str) : bool :=
  match dropwhile iscaseignorable before with
  | [] => false
  | c :: _ =>
      iscased c
      && match dropwhile iscaseignorable after with
         | [] => true
         | d :: _ => negb (iscased d)
         end
  end.

Fixpoint lower_go (before s : str) : str :=
  match s with
  | [] => []
  | c :: s' =>
      (if chr_eqb c SIGMA
       then [if final_sigma before s' then FINAL_SIGMA else SMALL_SIGMA]
       else tolower c)
      ++ lower_go (c :: before) s'
  end.

Definition lower (s : str) : str := lower_go [] s.

(** The classes [\w], [\s], [\d] and [.] of the [re] module on strings. *)
Definition re_w (c : char) : bool := isalnum c || chr_eqb c 95%N.
Definition re_s (c : char) : bool := isspace c.
Definition re_d (c : char) : bool := isdecimal c.
Definition re_dot (c : char) : bool := negb (chr_eqb c 10%N).

End Strings.

(** ** Regular expressions

    The patterns of the program quantify single-character classes only,
    so repetition is a constructor over a class.  Matching is the
    backtracking search of [re]: alternatives in order, greedy
    repetitions longest first, lazy ones shortest first. *)

Inductive regex : Type :=
| Eps
| Chr (p : char -> bool)
| Rep (greedy : bool) (lo : nat) (hi : option nat) (p : char -> bool)
| Eos
| Cat (r1 r2 : regex)
| Alt (r1 r2 : regex)
| Grp (r : regex).

Definition may_repeat (hi : option nat) : bool :=
  match hi with Some O => false | _ => true end.

Section Matcher.
Variable A : Type.

(** [p{lo,hi}], greedy: take a character when allowed, fall back to
    stopping here. *)
Fixpoint rep_greedy (p : char -> bool) (s : str) (lo : nat) (hi : option nat)
    (k : str -> option A) : option A :=
  let stop := match lo with O => k s | S _ => None end in
  match s with
  | [] => stop
  | c :: s' =>
      if p c && may_repeat hi
      then match rep_greedy p s' (pred lo) (option_map pred hi) k with
           | Some r => Some r
           | None => stop
           end
      else stop
  end.

(** [p{lo,hi}?], lazy: stop here when allowed, otherwise take a
    character. *)
Fixpoint rep_lazy (p : char -> bool) (s : str) (lo : nat) (hi : option nat)
    (k : str -> option A) : option A :=
  match (match lo with O => k s | S _ => None end) with
  | Some r => Some r
  | None =>
      match s with
      | [] => None
      | c :: s' =>
          if p c && may_repeat hi
          then rep_lazy p s' (pred lo) (option_map pred hi) k
          else None
      end
  end.

(** [$] without MULTILINE: the end of the string, or just before a
    newline that ends it. *)
Definition at_end (s : str) : bool :=
  match s with
  | [] => true
  | [c] => chr_eqb c 10%N
  | _ => false
  end.

(** [exec r s g k]: match [r] at the front of [s]; [g] is the text of the
    capturing group so far, [k] receives what is left of the input. *)
Fixpoint exec (r : regex) (s : str) (g : option str)
    (k : str -> option str -> option A) : option A :=
  match r with
  | Eps => k s g
  | Chr p =>
      match s with
      | c :: s' => if p c then k s' g else None
      | [] => None
      end
  | Rep greedy lo hi p =>
      (if greedy then rep_greedy else rep_lazy) p s lo hi (fun s' => k s' g)
  | Eos => if at_end s then k s g else None
  | Cat r1 r2 => exec r1 s g (fun s' g' => exec r2 s' g' k)
  | Alt r1 r2 =>
      match exec r1 s g k with
      | Some x => Some x
      | None => exec r2 s g k
      end
  | Grp r1 =>
      exec r1 s g (fun s' _ => k s' (Some (firstn (length s - length s') s)))
  end.

End Matcher.

(** A match: the text before it, the matched text, group 1, the rest. *)
Record match_object := {
  m_before : str;
  m_group0 : str;
  m_group1 : option str;
  m_after : str
}.

(** The match at the front of [s]; with [must_advance] an empty match is
    refused and the search backtracks. *)
Definition match_at (must_advance : bool) (r : regex) (s : str)
    : option (str * option str) :=
  exec r s None
    (fun rest g =>
       if must_advance && (length rest =? length s)
       then None else Some (rest, g)).

(** [re.search(r, s)]: the leftmost position with a match. *)
Fixpoint search_go (r : regex) (before s : str) : option match_object :=
  match match_at false r s with
  | Some (rest, g) =>
      Some {| m_before := rev before;
              m_group0 := firstn (length s - length rest) s;
              m_group1 := g;
              m_after := rest |}
  | None =>
      match s with
      | [] => None
      | c :: s' => search_go r (c :: before) s'
      end
  end.

Definition search (r : regex) (s : str) : option match_object :=
  search_go r [] s.

(** [re.sub(r, repl, s)] for a literal replacement.  After an empty match
    the next match at the same position must be non-empty; failing that
    the character is copied.  [skip] counts the characters of a match
    still to be passed over. *)
Fixpoint sub_go (r : regex) (repl s : str) (skip : nat) : str :=
  match skip with
  | S n =>
      match s with
      | [] => []
      | _ :: s' => sub_go r repl s' n
      end
  | O =>
      let copy := match s with
                  | [] => []
                  | c :: s' => c :: sub_go r repl s' 0
                  end in
      let consume n := match s with
                       | [] => []
                       | _ :: s' => sub_go r repl s' n
                       end in
      match match_at false r s with
      | None => copy
      | Some (rest, _) =>
          match length s - length rest with
          | S n => repl ++ consume n
          | O =>
              repl ++
              match match_at true r s with
              | Some (rest', _) => repl ++ consume (length s - length rest' - 1)
              | None => copy
              end
          end
      end
  end.

Definition sub (r : regex) (repl s : str) : str := sub_go r repl s 0.

Notation "r1 +> r2" := (Cat r1 r2) (at level 41, right associativity).
Notation "r1 <|> r2" := (Alt r1 r2) (at level 51, right associativity).
Abbreviation Star p := (Rep true 0 None p).
Abbreviation StarLazy p := (Rep false 0 None p).
Abbreviation Plus p := (Rep true 1 None p).

(** A class holding one ASCII character, and its complement. *)
Definition only (a : String.string) (c : char) : bool :=
  str_eqb [c] (lit a).
Definition except (a : String.string) (c : char) : bool := negb (only a c).
Arguments only a%_string c.
Arguments except a%_string c.

Definition EM_DASH : char := 8212%N.     (* U+2014 *)

(** ** Dictionaries

    A [dict] keeps its keys in insertion order, and the substring
    fallback of the attribution depends on that order: an association
    list with unique keys, new keys at the end. *)

Definition dict := list (str * str).

(** [k in d] *)
Fixpoint dict_contains (d : dict) (k : str) : bool :=
  match d with
  | [] => false
  | (k', _) :: d' => str_eqb k' k || dict_contains d' k
  end.

(** [d[k]]; [None] stands for the KeyError of a missing key. *)
Fixpoint dict_getitem (d : dict) (k : str) : option str :=
  match d with
  | [] => None
  | (k', v) :: d' => if str_eqb k' k then Some v else dict_getitem d' k
  end.

(** [d[k] = v]: a present key keeps its place and takes the new value, a
    new key goes to the end. *)
Fixpoint dict_setitem (d : dict) (k v : str) : dict :=
  match d with
  | [] => [(k, v)]
  | (k', v') :: d' =>
      if str_eqb k' k then (k', v) :: d' else (k', v') :: dict_setitem d' k v
  end.

(** ** [datetime] *)

Record date := { year : N; month : N; day : N }.

(** [datetime.strptime(s, '%d %B %Y')] belongs to the standard library
    and depends on the locale; [None] is its ValueError. *)
Class Datetime := {
  strptime_dBY : str -> option date
}.

Definition two_digits (n : N) : str :=
  [(48 + (n / 10) mod 10)%N; (48 + n mod 10)%N].

(** [d.strftime('%y.%m.%d')] *)
Definition strftime_ymd (d : date) : str :=
  two_digits (year d) ++ lit "." ++ two_digits (month d) ++ lit "."
  ++ two_digits (day d).

(** [str(i)] for a natural number. *)
Fixpoint str_of_uint (d : Decimal.uint) : str :=
  match d with
  | Decimal.Nil => []
  | Decimal.D0 d' => 48%N :: str_of_uint d'
  | Decimal.D1 d' => 49%N :: str_of_uint d'
  | Decimal.D2 d' => 50%N :: str_of_uint d'
  | Decimal.D3 d' => 51%N :: str_of_uint d'
  | Decimal.D4 d' => 52%N :: str_of_uint d'
  | Decimal.D5 d' => 53%N :: str_of_uint d'
  | Decimal.D6 d' => 54%N :: str_of_uint d'
  | Decimal.D7 d' => 55%N :: str_of_uint d'
  | Decimal.D8 d' => 56%N :: str_of_uint d'
  | Decimal.D9 d' => 57%N :: str_of_uint d'
  end.

Definition str_of_nat (n : nat) : str := str_of_uint (Nat.to_uint n).

(** [range(start, stop, step)] for a positive step. *)
Definition range (start stop step : nat) : list nat :=
  map (fun j => start + j * step) (seq 0 ((stop - start + step - 1) / step)).

(** ** The document, as the HTML parser hands it over

    Locating elements and turning markup into text is the work of
    BeautifulSoup.  A session is given by what the program reads from it:
    the text of its [h2], the [get_text(strip=True)] of each [li] of its
    [ul], and its [tr] rows.  A row is given by its class list, the
    [get_text(strip=True)] of its time span, the text of its [th] once the
    time span has been cut out and the markup stripped, and the text of
    its [td].  An absent element is [None]. *)

Record Row := {
  row_class : list str;
  time_tag : option str;
  sender_th : option str;
  content_td : option str
}.

Record Session := {
  session_h2 : option str;
  session_ul : option (list str);
  session_tr : list Row
}.

(** One entry of the ["conversations"] list. *)
Record Message := { from : str; value : str }.

(** What the program computes for a row it keeps. *)
Record Turn := {
  full_timestamp : str;
  sender_display_name_from_msg : str;
  identified_sender_identifier : option str;
  message : Message
}.

Section Program.
Context {U : Unicode} {D : Datetime}.

(** *** clean_display_name *)

(** [\s*[-—].*|\s*\[.*?\]|\s*\([^)]+\)|\s*:\s*$] *)
Definition suffix_re : regex :=
      (Star re_s +> Chr (fun c => only "-" c || chr_eqb c EM_DASH) +> Star re_dot)
  <|> (Star re_s +> Chr (only "[") +> StarLazy re_dot +> Chr (only "]"))
  <|> (Star re_s +> Chr (only "(") +> Plus (except ")") +> Chr (only ")"))
  <|> (Star re_s +> Chr (only ":") +> Star re_s +> Eos).

(** [[^\w\s]] *)
Definition special_re : regex := Chr (fun c => negb (re_w c || re_s c)).

(** [\s+] *)
Definition spaces_re : regex := Plus re_s.

Definition clean_display_name (display_name_text : str) : str :=
  let cleaned :=
    strip (replace (lit "&gt;") (lit ">")
             (replace (lit "&lt;") (lit "<") display_name_text)) in
  let cleaned := strip (sub suffix_re [] cleaned) in
  let cleaned := strip (sub special_re [] cleaned) in
  let cleaned := lower (strip (sub spaces_re (lit " ") cleaned)) in
  cleaned.

(** *** html_to_json: the session date *)

Definition UNKNOWN_DATE : str := lit "UNKNOWN_DATE".

(** [\d{1,2} \w+ \d{4}] *)
Definition date_re : regex :=
  Rep true 1 (Some 2) re_d +> Chr (only " ") +> Plus re_w +> Chr (only " ")
  +> Rep true 4 (Some 4) re_d.

Definition french_months : list (str * str) :=
  [ (lit "janvier", lit "January");
    (lit "f" ++ [233%N] ++ lit "vrier", lit "February");
    (lit "mars", lit "March");
    (lit "avril", lit "April");
    (lit "mai", lit "May");
    (lit "juin", lit "June");
    (lit "juillet", lit "July");
    (lit "ao" ++ [251%N] ++ lit "t", lit "August");
    (lit "septembre", lit "September");
    (lit "octobre", lit "October");
    (lit "novembre", lit "November");
    (lit "d" ++ [233%N] ++ lit "cembre", lit "December") ].

(** The loop over [french_months.items()]. *)
Definition translate_months (date_part : str) : str :=
  fold_left (fun date_part fr_en => replace (fst fr_en) (snd fr_en) date_part)
    french_months date_part.

Definition session_date_of (session_date_tag : option str) : str :=
  match session_date_tag with
  | None => UNKNOWN_DATE
  | Some text =>
      match search date_re text with
      | None => UNKNOWN_DATE
      | Some date_str_match =>
          match strptime_dBY (translate_months (m_group0 date_str_match)) with
          | Some d => strftime_ymd d
          | None => UNKNOWN_DATE
          end
      end
  end.

(** *** html_to_json: the participant map *)

(** [\(([^)]+@[^)]+\.[^)]+)\)] *)
Definition identifier_re : regex :=
  Chr (only "(")
  +> Grp (Plus (except ")") +> Chr (only "@") +> Plus (except ")") +> Chr (only ".")
          +> Plus (except ")"))
  +> Chr (only ")").

(** [m.group(1)]; the group of [identifier_re] takes part in every match
    (lemma [identifier_group1]), so the default is never used. *)
Definition group1 (m : match_object) : str :=
  match m_group1 m with Some g => g | None => [] end.

(** [if k and k not in d: d[k] = v] *)
Definition register (canonical_participant_map : dict) (k v : str) : dict :=
  if truthy k && negb (dict_contains canonical_participant_map k)
  then dict_setitem canonical_participant_map k v
  else canonical_participant_map.

(** [name.split(' ')[0] if name else ''] *)
Definition first_word (name_v2 : str) : str :=
  if truthy name_v2 then hd [] (split 32%N name_v2) else [].

(** The body of the loop over the [li] elements. *)
Definition add_participant (canonical_participant_map : dict)
    (full_li_text : str) : dict :=
  match search identifier_re full_li_text with
  | Some identifier_match =>
      let primary_identifier := lower (group1 identifier_match) in
      let display_name_part :=
        strip (replace (lit "(" ++ group1 identifier_match ++ lit ")") []
                 full_li_text) in
      let name_v1 := lower display_name_part in
      let map1 := register canonical_participant_map name_v1 primary_identifier in
      let name_v2 := clean_display_name display_name_part in
      let map2 := register map1 name_v2 primary_identifier in
      let name_v3 := first_word name_v2 in
      register map2 name_v3 primary_identifier
  | None =>
      let cleaned_name := clean_display_name full_li_text in
      register canonical_participant_map cleaned_name cleaned_name
  end.

Definition build_participant_map (participants_list : option (list str)) : dict :=
  match participants_list with
  | None => []
  | Some lis => fold_left add_participant lis []
  end.

(** *** html_to_json: message rows *)

(** The three spellings of a name that serve as lookup keys. *)
Definition sender_name_v1 (sender : str) : str := lower sender.
Definition sender_name_v2 (sender : str) : str := clean_display_name sender.
Definition sender_name_v3 (sender : str) : str :=
  first_word (sender_name_v2 sender).

(** The [for .. in canonical_participant_map.items()] loop with its
    [break]. *)
Fixpoint substring_fallback (items : dict) (name_v2 : str) : option str :=
  match items with
  | [] => None
  | (canonical_name, identifier_in_map) :: items' =>
      if str_in canonical_name name_v2 || str_in name_v2 canonical_name
      then Some identifier_in_map
      else substring_fallback items' name_v2
  end.

(** The [if/elif/else] that sets [identified_sender_identifier]; [None]
    is the initial value it keeps when nothing matches. *)
Definition identify (canonical_participant_map : dict) (sender : str)
    : option str :=
  if dict_contains canonical_participant_map (sender_name_v2 sender)
  then dict_getitem canonical_participant_map (sender_name_v2 sender)
  else if dict_contains canonical_participant_map (sender_name_v3 sender)
  then dict_getitem canonical_participant_map (sender_name_v3 sender)
  else if dict_contains canonical_participant_map (sender_name_v1 sender)
  then dict_getitem canonical_participant_map (sender_name_v1 sender)
  else substring_fallback canonical_participant_map (sender_name_v2 sender).

Definition from_field (user_identifier : str)
    (identified_sender_identifier : option str) : str :=
  match identified_sender_identifier with
  | Some identifier =>
      if truthy identifier
         && str_eqb (lower user_identifier) (lower identifier)
      then lit "gpt" else lit "human"
  | None => lit "human"
  end.

(** The filter on links and ping requests. *)
Definition is_noise (content_text : str) : bool :=
  let text := lower (strip content_text) in
  startswith text (lit "http://")
  || startswith text (lit "https://")
  || startswith text (lit "ping? [request]").

Definition timestamp_of (session_date time_text : str) : str :=
  let time_str := replace (lit ")") [] (replace (lit "(") [] time_text) in
  let time_str :=
    if length (split 58%N time_str) =? 2 then time_str ++ lit ":00"
    else time_str in
  session_date ++ lit ", " ++ time_str.

(** The sender name of a row: the text of its sender cell without
    trailing colons and surrounding white space. *)
Definition sender_of (sender_text : str) : str :=
  strip (rstrip_of (only ":") sender_text).

(** The body of the loop over the rows: [None] when the row is skipped. *)
Definition process_row (canonical_participant_map : dict)
    (user_identifier session_date : str) (row : Row) : option Turn :=
  if existsb (str_eqb (lit "msgplus")) (row_class row) then None
  else
    match time_tag row, sender_th row, content_td row with
    | Some time_text, Some sender_text, Some content_text =>
        let sender := sender_of sender_text in
        if is_noise content_text then None
        else
          let identified := identify canonical_participant_map sender in
          Some {| full_timestamp := timestamp_of session_date time_text;
                  sender_display_name_from_msg := sender;
                  identified_sender_identifier := identified;
                  message := {| from := from_field user_identifier identified;
                                value := content_text |} |}
    | _, _, _ => None
    end.

Fixpoint filter_map {X Y : Type} (f : X -> option Y) (l : list X) : list Y :=
  match l with
  | [] => []
  | x :: l' =>
      match f x with
      | Some y => y :: filter_map f l'
      | None => filter_map f l'
      end
  end.

(** The rows a session keeps, in order. *)
Definition session_turns (user_identifier : str) (session : Session)
    : list Turn :=
  filter_map
    (process_row (build_participant_map (session_ul session)) user_identifier
       (session_date_of (session_h2 session)))
    (session_tr session).

Definition session_conversations (user_identifier : str) (session : Session)
    : list Message :=
  map message (session_turns user_identifier session).

(** *** html_to_json: writing the files *)

(** A written file: its path and the list under ["conversations"]. *)
Definition file := (str * list Message)%type.

Definition write_chunk (json_file_path : str) (conversations : list Message)
    (i : nat) : list file :=
  let partial_conversations := firstn 40 (skipn i conversations) in
  if length partial_conversations <? 3 then []
  else [(json_file_path ++ str_of_nat i ++ lit ".json", partial_conversations)].

Definition save_conversations (json_file_path : str)
    (conversations : list Message) : list file :=
  if 40 <? length conversations
  then flat_map (write_chunk json_file_path conversations)
         (range 0 (length conversations) 40)
  else if length conversations <? 3 then []
  else [(json_file_path ++ lit ".json", conversations)].

(** [soup] is [None] when the file cannot be opened or parsed; the
    result is the list of files written, in order. *)
Definition html_to_json (soup : option (list Session))
    (json_file_path user_identifier : str) : list file :=
  match soup with
  | None => []
  | Some sessions =>
      save_conversations json_file_path
        (flat_map (session_conversations user_identifier) sessions)
  end.

End Program.

(** ** CPython's tables on Latin-1

    The tables of CPython 3 restricted to U+0000..U+00FF, U+0130 and
    U+0307; any other code point is given no property and is its own
    lower case, which is right for U+2014 as well. *)

Definition between (lo hi c : N) : bool := ((lo <=? c) && (c <=? hi))%N.

Definition latin1_isspace (c : char) : bool :=
  between 9 13 c || between 28 32 c || chr_eqb c 133%N || chr_eqb c 160%N.

Definition latin1_isalpha (c : char) : bool :=
  between 65 90 c || between 97 122 c || chr_eqb c 170%N || chr_eqb c 181%N
  || chr_eqb c 186%N || between 192 214 c || between 216 246 c
  || between 248 255 c || chr_eqb c 304%N.

Definition latin1_isdecimal (c : char) : bool := between 48 57 c.

Definition latin1_isalnum (c : char) : bool :=
  latin1_isalpha c || latin1_isdecimal c || between 178 179 c
  || chr_eqb c 185%N || between 188 190 c.

Definition latin1_tolower (c : char) : char * str :=
  if between 65 90 c || between 192 214 c || between 216 222 c
  then ((c + 32)%N, [])
  else if chr_eqb c 304%N then (105%N, [775%N])
  else (c, []).

Definition latin1_iscased (c : char) : bool := latin1_isalpha c.

Definition latin1_iscaseignorable (c : char) : bool :=
  existsb (chr_eqb c) [39; 46; 58; 94; 96; 168; 173; 175; 180; 183; 184; 775]%N.

#[export] Instance latin1 : Unicode := {
  isspace := latin1_isspace;
  isalnum := latin1_isalnum;
  isdecimal := latin1_isdecimal;
  tolower_full := latin1_tolower;
  iscased := latin1_iscased;
  iscaseignorable := latin1_iscaseignorable
}.

(** ** [strptime] in the C locale

    The format ['%d %B %Y'] as [_strptime] reads it: a day among
    [3[0-1]|[1-2]\d|0[1-9]|[1-9]| [1-9]], white space, an English month
    name in any case, white space, four digits, and nothing after them;
    the date must exist. *)

Definition month_names : list str :=
  [ lit "january"; lit "february"; lit "march"; lit "april"; lit "may";
    lit "june"; lit "july"; lit "august"; lit "september"; lit "october";
    lit "november"; lit "december" ].

Definition digit_value (c : char) : N := (c - 48)%N.

Definition day_alternatives (s : str) : list (N * str) :=
  (match s with
   | a :: b :: r =>
       (if chr_eqb a 51%N && between 48 49 b
        then [((30 + digit_value b)%N, r)] else [])
       ++ (if between 49 50 a && latin1_isdecimal b
           then [((10 * digit_value a + digit_value b)%N, r)] else [])
       ++ (if chr_eqb a 48%N && between 49 57 b
           then [(digit_value b, r)] else [])
   | _ => []
   end)
  ++ (match s with
      | a :: r => if between 49 57 a then [(digit_value a, r)] else []
      | [] => []
      end)
  ++ (match s with
      | a :: b :: r =>
          if chr_eqb a 32%N && between 49 57 b then [(digit_value b, r)] else []
      | _ => []
      end).

(** One or more white-space characters, as many as there are. *)
Definition skip_spaces (s : str) : option str :=
  match s with
  | c :: _ => if latin1_isspace c then Some (dropwhile latin1_isspace s) else None
  | [] => None
  end.

Fixpoint month_at (names : list str) (number : N) (s : str) : option (N * str) :=
  match names with
  | [] => None
  | name :: names' =>
      if str_eqb (lower (firstn (length name) s)) name
      then Some (number, skipn (length name) s)
      else month_at names' (number + 1)%N s
  end.

Definition is_leap (y : N) : bool :=
  ((y mod 4 =? 0) && (negb (y mod 100 =? 0) || (y mod 400 =? 0)))%N.

Definition days_in_month (y m : N) : N :=
  if (m =? 2)%N then (if is_leap y then 29 else 28)%N
  else if ((m =? 4) || (m =? 6) || (m =? 9) || (m =? 11))%N then 30%N
  else 31%N.

Definition year_at (s : str) : option N :=
  match s with
  | [a; b; c; d] =>
      if forallb latin1_isdecimal s
      then Some (1000 * digit_value a + 100 * digit_value b
                 + 10 * digit_value c + digit_value d)%N
      else None
  | _ => None
  end.

Definition month_and_year (s : str) : option (N * N) :=
  match skip_spaces s with
  | None => None
  | Some s1 =>
      match month_at month_names 1 s1 with
      | None => None
      | Some (m, s2) =>
          match skip_spaces s2 with
          | None => None
          | Some s3 =>
              match year_at s3 with
              | None => None
              | Some y => Some (m, y)
              end
          end
      end
  end.

(** The first way of reading the day that lets the rest match. *)
Fixpoint first_match (alternatives : list (N * str)) : option date :=
  match alternatives with
  | [] => None
  | (d, s) :: rest =>
      match month_and_year s with
      | Some (m, y) => Some {| year := y; month := m; day := d |}
      | None => first_match rest
      end
  end.

Definition c_strptime_dBY (s : str) : option date :=
  match first_match (day_alternatives s) with
  | Some d =>
      if ((1 <=? year d) && (day d <=? days_in_month (year d) (month d)))%N
      then Some d else None
  | None => None
  end.

#[export] Instance c_locale : Datetime := {
  strptime_dBY := c_strptime_dBY
}.

(** ** The attribution as the specification words it

    Four attempts in a fixed order, the first success wins: exact lookup
    of the heavily normalised name, of its first token, of the lightly
    normalised name, then the first key in insertion order that contains
    the heavily normalised name or is contained in it. *)

Fixpoint first_success (attempts : list (option str)) : option str :=
  match attempts with
  | [] => None
  | Some v :: _ => Some v
  | None :: rest => first_success rest
  end.

Definition substring_compatible (name : str) (entry : str * str) : bool :=
  str_in (fst entry) name || str_in name (fst entry).

Definition attribution_attempts {U : Unicode} (m : dict) (sender : str)
    : list (option str) :=
  [ dict_getitem m (sender_name_v2 sender);
    dict_getitem m (sender_name_v3 sender);
    dict_getitem m (sender_name_v1 sender);
    option_map snd (find (substring_compatible (sender_name_v2 sender)) m) ].

(** The least number of characters a match of [r] consumes. *)
Fixpoint min_len (r : regex) : nat :=
  match r with
  | Eps | Eos => 0
  | Chr _ => 1
  | Rep _ lo _ _ => lo
  | Cat r1 r2 => min_len r1 + min_len r2
  | Alt r1 r2 => Nat.min (min_len r1) (min_len r2)
  | Grp r1 => min_len r1
  end.

(** Keys of the map are never empty. *)
Definition keys_truthy (m : dict) : Prop :=
  Forall (fun kv => truthy (fst kv) = true) m.

(** Identifiers stored in the map are never empty. *)
Definition values_truthy (m : dict) : Prop :=
  Forall (fun kv => truthy (snd kv) = true) m.

(** ** Chunks as the specification words them

    The sizes of the consecutive chunks of at most 40 into which a
    sequence of [n] messages is cut. *)
Definition chunk_sizes (n : nat) : list nat :=
  map (fun j => Nat.min 40 (n - 40 * j)) (seq 0 ((n + 39) / 40)).

(** What a turn shows besides its timestamp. *)
Definition attribution_of (t : Turn) : str * option str * Message :=
  (sender_display_name_from_msg t, identified_sender_identifier t, message t).

Definition with_h2 (h2 : option str) (session : Session) : Session :=
  {| session_h2 := h2;
     session_ul := session_ul session;
     session_tr := session_tr session |}.

(** ** The scenario of the specification *)

Definition jane_entry : str := lit "Jane Doe (jane.doe@example.com)".
Definition jane_cell : str := lit "Jane D. :".
Definition jane_identifier : str := lit "jane.doe@example.com".

Definition sample_row : Row :=
  {| row_class := [];
     time_tag := Some (lit "(12:30)");
     sender_th := Some jane_cell;
     content_td := Some (lit "hello") |}.

Definition sample_turn : Turn :=
  {| full_timestamp := lit "UNKNOWN_DATE, 12:30:00";
     sender_display_name_from_msg := lit "Jane D.";
     identified_sender_identifier := Some jane_identifier;
     message := {| from := lit "gpt"; value := lit "hello" |} |}.

Definition link_row : Row :=
  {| row_class := [];
     time_tag := Some (lit "(12:31)");
     sender_th := Some jane_cell;
     content_td := Some (lit "  HTTPS://Example.com ") |}.

Definition bob_row : Row :=
  {| row_class := [];
     time_tag := Some (lit "(12:32:10)");
     sender_th := Some (lit "Bob :");
     content_td := Some (lit "hi Jane") |}.

Definition status_row : Row :=
  {| row_class := [lit "msgplus"];
     time_tag := Some (lit "(12:33)");
     sender_th := Some (lit "Bob :");
     content_td := Some (lit "Bob is away") |}.

Definition sample_session : Session :=
  {| session_h2 := Some (lit "Session du 31 juin 2003");
     session_ul := Some [jane_entry];
     session_tr := [sample_row; link_row] |}.

Definition sample_document : list Session :=
  [ sample_session;
    {| session_h2 := Some (lit "Session du 4 mars 2003");
       session_ul := Some [jane_entry; lit "Bob"];
       session_tr := [bob_row; status_row; sample_row] |} ].

(** ** Lower case and normal forms

    [clean_display_name] lower-cases last, so what it returns is a
    normal form only if lower-casing does not leave the word characters.
    The following predicates say when it does not. *)

Section Stability.
Context {U : Unicode}.

(** The lower-case forms a character can take in a string. *)
Definition lower_images (c : char) : str :=
  if chr_eqb c SIGMA then [FINAL_SIGMA; SMALL_SIGMA] else tolower c.

(** A word character that is not white space and is its own lower case. *)
Definition settled (d : char) : Prop :=
  re_w d = true /\ isspace d = false /\ d <> SIGMA /\ tolower d = [d].

(** Lower-casing the word character [c] yields settled characters, and
    at least one. *)
Definition lower_stable (c : char) : Prop :=
  re_w c = true -> isspace c = false ->
  lower_images c <> [] /\ Forall settled (lower_images c).

(** What the argument needs of the tables at fixed code points: the space
    is white space and its own lower case, and [&], [(], [-], [:], [<],
    [>], [[] and U+2014 are not word characters. *)
Definition punctuation_tables : Prop :=
  isspace 32%N = true /\ tolower 32%N = [32%N]
  /\ Forall (fun c => re_w c = false) [38; 40; 45; 58; 60; 62; 91; 8212]%N.

(** What [re.sub(r'\s+', ' ', s)] computes: every run of white space
    becomes one space.  [in_run] tells that the run has begun. *)
Fixpoint squeeze (in_run : bool) (s : str) : str :=
  match s with
  | [] => []
  | c :: s' =>
      if isspace c
      then (if in_run then squeeze true s' else 32%N :: squeeze true s')
      else c :: squeeze false s'
  end.

(** The length of the run of white space at the front. *)
Fixpoint run (s : str) : nat :=
  match s with
  | [] => 0
  | c :: s' => if isspace c then S (run s') else 0
  end.

(** No two white-space characters in a row. *)
Fixpoint single_spaced (s : str) : Prop :=
  match s with
  | [] => True
  | c :: s' =>
      match s' with
      | [] => True
      | d :: _ => isspace c && isspace d = false
      end /\ single_spaced s'
  end.

(** Neither the first nor the last character is white space. *)
Definition ends_unspaced (s : str) : Prop :=
  (forall c r, s = c :: r -> isspace c = false)
  /\ (forall r c, s = r ++ [c] -> isspace c = false).

(** The characters that start a match of [suffix_re] after white space. *)
Definition trigger (c : char) : bool :=
  only "-" c || chr_eqb c EM_DASH || only "[" c || only "(" c || only ":" c.

End Stability.

(** Words of [P]-characters separated by single spaces. *)
Inductive words (P : char -> Prop) : str -> Prop :=
| words_last c : P c -> words P [c]
| words_char c t : P c -> words P t -> words P (c :: t)
| words_space c t : P c -> words P t -> words P (c :: 32%N :: t).

Section StabilityChecks.
Context {U : Unicode}.

(** The word characters that stay words under lower-casing. *)
Definition stable_word (c : char) : Prop :=
  re_w c = true /\ isspace c = false /\ lower_stable c.

(** [settled] and [lower_stable] as tests. *)
Definition settled_check (d : char) : bool :=
  re_w d && negb (isspace d) && negb (chr_eqb d SIGMA)
  && str_eqb (tolower d) [d].

Definition stable_check (c : char) : bool :=
  negb (re_w c) || isspace c
  || (truthy (lower_images c) && forallb settled_check (lower_images c)).

End StabilityChecks.

(** ** process_folder and the command line

    The directory listing and the parsed content of each file are what
    the file system hands over; creating the output folder and writing
    the files are taken to succeed.  [os.path] is [posixpath], as on
    Linux and macOS: [splitext] and [path_join] below are its
    [splitext] and [join].  On Windows [os.path] is [ntpath], which
    joins with a backslash. *)

(** [s.endswith(suffix)] *)
Definition endswith (s suffix : str) : bool :=
  startswith (rev s) (rev suffix).

(** [p.rfind(c)] for a one-character [c]: where [c] occurs last. *)
Fixpoint rfind (c : char) (p : str) : option nat :=
  match p with
  | [] => None
  | a :: p' =>
      match rfind c p' with
      | Some i => Some (S i)
      | None => if chr_eqb a c then Some 0 else None
      end
  end.

(** [os.path.splitext(p)] on POSIX: the extension starts at the last dot
    of the last component, unless only dots precede it there. *)
Definition splitext (p : str) : str * str :=
  let filenameIndex :=
    match rfind 47%N p with Some sepIndex => S sepIndex | None => 0 end in
  match rfind 46%N p with
  | Some dotIndex =>
      if (filenameIndex <=? dotIndex)
         && existsb (fun c => negb (chr_eqb c 46%N))
              (firstn (dotIndex - filenameIndex) (skipn filenameIndex p))
      then (firstn dotIndex p, skipn dotIndex p)
      else (p, [])
  | None => (p, [])
  end.

(** [os.path.join(a, b)] on POSIX. *)
Definition path_join (a b : str) : str :=
  if startswith b (lit "/") then b
  else if negb (truthy a) || endswith a (lit "/") then a ++ b
  else a ++ lit "/" ++ b.

(** What a run of [process_folder] does. *)
Record Run := {
  made_output_folder : bool;
  written : list file;
  warned_no_html : bool
}.

Section Folder.
Context {U : Unicode} {D : Datetime}.

(** The body of the loop over [os.listdir(data_folder)]; [parse] gives
    the content of the file at a path, [None] when it cannot be read. *)
Definition process_file (parse : str -> option (list Session))
    (data_folder output_folder user_identifier filename : str) : list file :=
  if endswith filename (lit ".html")
  then
    let file_path := path_join data_folder filename in
    let json_file_name := fst (splitext filename) in
    let json_file_path := path_join output_folder json_file_name in
    html_to_json (parse file_path) json_file_path user_identifier
  else [].

Definition process_folder (output_folder_exists : bool) (listing : list str)
    (parse : str -> option (list Session))
    (data_folder output_folder user_identifier : str) : Run :=
  {| made_output_folder := negb output_folder_exists;
     written :=
       flat_map (process_file parse data_folder output_folder user_identifier)
         listing;
     warned_no_html :=
       negb (existsb (fun filename => endswith filename (lit ".html")) listing) |}.

(** The script body after argument parsing: [None] when it exits on an
    empty identifier. *)
Definition main (user_identifier : str) (output_folder_exists : bool)
    (listing : list str) (parse : str -> option (list Session)) : option Run :=
  if negb (truthy user_identifier) then None
  else Some (process_folder output_folder_exists listing parse
               (lit "data/raw_data") (lit "data/preprocessed") user_identifier).

(** *** Auxiliary notions for the properties of [html_to_json] *)

(** The identifier a roster entry registers its keys under. *)
Definition entry_identifier (full_li_text : str) : str :=
  match search identifier_re full_li_text with
  | Some identifier_match => lower (group1 identifier_match)
  | None => clean_display_name full_li_text
  end.

(** The display name of an entry with an identifier. *)
Definition display_name_part (full_li_text : str) (identifier_match : match_object)
    : str :=
  strip (replace (lit "(" ++ group1 identifier_match ++ lit ")") []
           full_li_text).

(** The text of a row that is kept: the row is no status row, has its
    three elements, and its text is no noise. *)
Definition kept_content (row : Row) : option str :=
  if existsb (str_eqb (lit "msgplus")) (row_class row) then None
  else
    match time_tag row, sender_th row, content_td row with
    | Some _, Some _, Some content_text =>
        if is_noise content_text then None else Some content_text
    | _, _, _ => None
    end.

End Folder.

(** A session without its date and its times of day. *)
Definition without_time (row : Row) : Row :=
  {| row_class := row_class row;
     time_tag := option_map (fun _ => []) (time_tag row);
     sender_th := sender_th row;
     content_td := content_td row |}.

Definition without_dates (session : Session) : Session :=
  {| session_h2 := None;
     session_ul := session_ul session;
     session_tr := map without_time (session_tr session) |}.

(** ** What a pattern matches

    [matches r w rest]: [r] matches the text [w] when [rest] follows. *)
Inductive matches : regex -> str -> str -> Prop :=
| matches_eps rest : matches Eps [] rest
| matches_chr p c rest : p c = true -> matches (Chr p) [c] rest
| matches_rep greedy lo hi p w rest :
    Forall (fun c => p c = true) w -> lo <= length w ->
    (forall h, hi = Some h -> length w <= h) ->
    matches (Rep greedy lo hi p) w rest
| matches_eos rest : at_end rest = true -> matches Eos [] rest
| matches_cat r1 r2 w1 w2 rest :
    matches r1 w1 (w2 ++ rest) -> matches r2 w2 rest ->
    matches (Cat r1 r2) (w1 ++ w2) rest
| matches_alt_l r1 r2 w rest : matches r1 w rest -> matches (Alt r1 r2) w rest
| matches_alt_r r1 r2 w rest : matches r2 w rest -> matches (Alt r1 r2) w rest
| matches_grp r w rest : matches r w rest -> matches (Grp r) w rest.

(** What one guarded registration adds to the map. *)
Definition registered (m : dict) (k v : str) : dict :=
  if truthy k && negb (dict_contains m k) then [(k, v)] else [].

(** A decimal digit of ASCII. *)
Definition is_digit (c : char) : Prop := (48 <= c <= 57)%N.

(** ** A small folder *)

Definition jane_match : match_object :=
  {| m_before := lit "Jane Doe ";
     m_group0 := lit "(jane.doe@example.com)";
     m_group1 := Some jane_identifier;
     m_after := [] |}.

Definition long_session : Session :=
  {| session_h2 := Some (lit "Session du 4 mars 2003");
     session_ul := Some [jane_entry];
     session_tr := repeat sample_row 41 |}.

Definition sample_listing : list str :=
  [lit "chat.html"; lit "notes.txt"; lit "chat0.html"].

Definition sample_parse (file_path : str) : option (list Session) :=
  if str_eqb file_path (lit "data/raw_data/chat.html") then Some [long_session]
  else if str_eqb file_path (lit "data/raw_data/chat0.html")
  then Some sample_document
  else None.

(** The characters of the French month names. *)
Definition month_letters : str := concat (map fst french_months).

(** ** ASCII

    The strings of the scenario are ASCII; [ascii_tables] says that the
    tables give the ASCII characters what CPython gives them. *)
Definition ascii (c : char) : Prop := (c < 128)%N.

Definition ascii_tables {U : Unicode} : Prop :=
  forall c, ascii c ->
    isspace c = latin1_isspace c
    /\ isalnum c = latin1_isalnum c
    /\ tolower_full c = latin1_tolower c.

(** The key [k], if it is in the map, stands for [v] there. *)
Definition owned_by (m : dict) (k v : str) : Prop :=
  forall v', dict_getitem m k = Some v' -> v' = v.

(** Two patterns of the same shape whose classes agree on the characters
    that satisfy [P]. *)
Inductive same_on (P : char -> Prop) : regex -> regex -> Prop :=
| same_eps : same_on P Eps Eps
| same_chr p q : (forall c, P c -> p c = q c) -> same_on P (Chr p) (Chr q)
| same_rep greedy lo hi p q :
    (forall c, P c -> p c = q c) ->
    same_on P (Rep greedy lo hi p) (Rep greedy lo hi q)
| same_eos : same_on P Eos Eos
| same_cat r1 r2 r1' r2' :
    same_on P r1 r1' -> same_on P r2 r2' -> same_on P (Cat r1 r2) (Cat r1' r2')
| same_alt r1 r2 r1' r2' :
    same_on P r1 r1' -> same_on P r2 r2' -> same_on P (Alt r1 r2) (Alt r1' r2')
| same_grp r r' : same_on P r r' -> same_on P (Grp r) (Grp r').

(** * Properties *)

(** ** Strings and dictionaries *)

Lemma chr_eqb_eq (a b : char) : chr_eqb a b = true <-> a = b.
Proof. apply N.eqb_eq. Qed.

Lemma str_eqb_eq (a b : str) : str_eqb a b = true <-> a = b.
Proof.
  revert b; induction a as [|x a IH]; intros [|y b]; simpl;
    try (split; [discriminate | congruence]); try tauto.
  rewrite andb_true_iff, chr_eqb_eq, IH. split.
  - intros [-> ->]; reflexivity.
  - intros E; inversion E; auto.
Qed.

Lemma str_eqb_refl (a : str) : str_eqb a a = true.
Proof. apply str_eqb_eq; reflexivity. Qed.

Lemma str_eqb_neq (a b : str) : str_eqb a b = false <-> a <> b.
Proof.
  rewrite <- str_eqb_eq. destruct (str_eqb a b); split; congruence.
Qed.

Lemma startswith_nil (s : str) : startswith s [] = true.
Proof. destruct s; reflexivity. Qed.

(** The empty string occurs in every string. *)
Lemma str_in_nil (hay : str) : str_in [] hay = true.
Proof. destruct hay; reflexivity. Qed.

Lemma dict_contains_getitem (d : dict) (k : str) :
  dict_contains d k = true <-> exists v, dict_getitem d k = Some v.
Proof.
  induction d as [|[k' v'] d IH]; simpl.
  - split; [discriminate | intros [v H]; discriminate].
  - destruct (str_eqb k' k); simpl; [|exact IH].
    split; [eauto | reflexivity].
Qed.

Lemma dict_getitem_absent (d : dict) (k : str) :
  dict_contains d k = false <-> dict_getitem d k = None.
Proof.
  induction d as [|[k' v'] d IH]; simpl; [tauto|].
  destruct (str_eqb k' k); simpl; [|exact IH].
  split; discriminate.
Qed.

Lemma dict_getitem_In (d : dict) (k v : str) :
  dict_getitem d k = Some v -> In (k, v) d.
Proof.
  induction d as [|[k' v'] d IH]; simpl; [discriminate|].
  destruct (str_eqb k' k) eqn:E.
  - apply str_eqb_eq in E. intros [= ->]. left; congruence.
  - auto.
Qed.

(** A new key goes to the end and changes nothing else. *)
Lemma dict_setitem_new (d : dict) (k v : str) :
  dict_contains d k = false -> dict_setitem d k v = d ++ [(k, v)].
Proof.
  induction d as [|[k' v'] d IH]; simpl; [reflexivity|].
  destruct (str_eqb k' k); simpl; [discriminate|].
  intros H. rewrite IH by assumption. reflexivity.
Qed.

Lemma dict_getitem_app (d e : dict) (k v : str) :
  dict_getitem d k = Some v -> dict_getitem (d ++ e) k = Some v.
Proof.
  induction d as [|[k' v'] d IH]; simpl; [discriminate|].
  destruct (str_eqb k' k); auto.
Qed.

Section MapProperties.
Context {U : Unicode} {D : Datetime}.

Lemma register_spec (m : dict) (k v : str) :
  register m k v =
  if truthy k && negb (dict_contains m k) then m ++ [(k, v)] else m.
Proof.
  unfold register. destruct (truthy k); simpl; [|reflexivity].
  destruct (dict_contains m k) eqn:E; simpl; [reflexivity|].
  apply dict_setitem_new; assumption.
Qed.

Lemma register_keeps (m : dict) (k v k0 v0 : str) :
  dict_getitem m k0 = Some v0 -> dict_getitem (register m k v) k0 = Some v0.
Proof.
  intros H. rewrite register_spec.
  destruct (truthy k && negb (dict_contains m k)); [|assumption].
  apply dict_getitem_app; assumption.
Qed.

Lemma add_participant_keeps (m : dict) (li k0 v0 : str) :
  dict_getitem m k0 = Some v0 ->
  dict_getitem (add_participant m li) k0 = Some v0.
Proof.
  intros H. unfold add_participant.
  destruct (search identifier_re li); auto using register_keeps.
Qed.

Lemma roster_keeps (lis : list str) (m : dict) (k0 v0 : str) :
  dict_getitem m k0 = Some v0 ->
  dict_getitem (fold_left add_participant lis m) k0 = Some v0.
Proof.
  revert m; induction lis as [|li lis IH]; intros m H; simpl; [assumption|].
  apply IH, add_participant_keeps, H.
Qed.

Lemma register_keys_truthy (m : dict) (k v : str) :
  keys_truthy m -> keys_truthy (register m k v).
Proof.
  intros H. rewrite register_spec. destruct (truthy k) eqn:E; simpl; [|assumption].
  destruct (dict_contains m k); simpl; [assumption|].
  apply Forall_app; split; [assumption|]. constructor; [exact E | constructor].
Qed.

Lemma add_participant_keys_truthy (m : dict) (li : str) :
  keys_truthy m -> keys_truthy (add_participant m li).
Proof.
  intros H. unfold add_participant.
  destruct (search identifier_re li); auto using register_keys_truthy.
Qed.

Lemma roster_keys_truthy (lis : list str) (m : dict) :
  keys_truthy m -> keys_truthy (fold_left add_participant lis m).
Proof.
  revert m; induction lis as [|li lis IH]; intros m H; simpl; [assumption|].
  apply IH, add_participant_keys_truthy, H.
Qed.

Lemma build_keys_truthy (ul : option (list str)) :
  keys_truthy (build_participant_map ul).
Proof.
  destruct ul as [lis|]; simpl; [|constructor].
  apply roster_keys_truthy. constructor.
Qed.

Lemma keys_truthy_no_empty_key (m : dict) :
  keys_truthy m -> dict_contains m [] = false.
Proof.
  induction 1 as [|[k v] m Hk _ IH]; simpl; [reflexivity|].
  destruct k; [discriminate Hk|]. exact IH.
Qed.

End MapProperties.

(** ** The participant map *)

Section ParticipantMap.
Context {U : Unicode} {D : Datetime}.

(** C3. Once a key of the participant map has an identifier, it keeps
    it: through any single registration, be it of a lightly normalised
    name, a heavily normalised name, a first token or a name without
    e-mail, and so through every roster entry processed later in the
    session. *)
Theorem first_registration_wins (m : dict) (k v : str) :
  dict_getitem m k = Some v ->
  (forall k' v', dict_getitem (register m k' v') k = Some v)
  /\ (forall later : list str,
         dict_getitem (fold_left add_participant later m) k = Some v).
Proof.
  intros H. split.
  - intros k' v'. apply register_keeps, H.
  - intros later. revert m H.
    induction later as [|li later IH]; intros m H; simpl; [exact H|].
    apply IH, add_participant_keeps, H.
Qed.

(** C10. A roster entry without a parenthesised e-mail token adds at most
    one key, the heavily normalised entry text mapped to itself, and it
    adds it only when that text is non-empty and not yet a key; nothing
    is registered for the lightly normalised text or the first token. *)
Theorem entry_without_email (m : dict) (full_li_text : str) :
  search identifier_re full_li_text = None ->
  add_participant m full_li_text =
  let cleaned_name := clean_display_name full_li_text in
  if truthy cleaned_name && negb (dict_contains m cleaned_name)
  then m ++ [(cleaned_name, cleaned_name)]
  else m.
Proof.
  intros H. unfold add_participant. rewrite H. apply register_spec.
Qed.

Lemma substring_fallback_find (m : dict) (name : str) :
  substring_fallback m name =
  option_map snd (find (substring_compatible name) m).
Proof.
  induction m as [|[k v] m IH]; simpl; [reflexivity|].
  unfold substring_compatible at 1; simpl.
  destruct (str_in k name || str_in name k); [reflexivity | exact IH].
Qed.

Lemma identify_attempts (m : dict) (sender : str) :
  identify m sender = first_success (attribution_attempts m sender).
Proof.
  unfold identify, attribution_attempts; simpl.
  destruct (dict_contains m (sender_name_v2 sender)) eqn:E2.
  { apply dict_contains_getitem in E2 as [v ->]. reflexivity. }
  apply dict_getitem_absent in E2 as ->.
  destruct (dict_contains m (sender_name_v3 sender)) eqn:E3.
  { apply dict_contains_getitem in E3 as [v ->]. reflexivity. }
  apply dict_getitem_absent in E3 as ->.
  destruct (dict_contains m (sender_name_v1 sender)) eqn:E1.
  { apply dict_contains_getitem in E1 as [v ->]. reflexivity. }
  apply dict_getitem_absent in E1 as ->.
  rewrite substring_fallback_find.
  destruct (find _ m); reflexivity.
Qed.

Lemma process_row_Some (m : dict) (user date : str) (row : Row) (t : Turn) :
  process_row m user date row = Some t ->
  exists time_text sender_text content_text,
    time_tag row = Some time_text /\ sender_th row = Some sender_text
    /\ content_td row = Some content_text
    /\ is_noise content_text = false
    /\ t = {| full_timestamp := timestamp_of date time_text;
              sender_display_name_from_msg := sender_of sender_text;
              identified_sender_identifier := identify m (sender_of sender_text);
              message :=
                {| from := from_field user (identify m (sender_of sender_text));
                   value := content_text |} |}.
Proof.
  unfold process_row.
  destruct (existsb _ _); [discriminate|].
  destruct (time_tag row) as [tt|]; [|discriminate].
  destruct (sender_th row) as [st|]; [|discriminate].
  destruct (content_td row) as [ct|]; [|discriminate].
  destruct (is_noise ct) eqn:E; [discriminate|].
  intros [= <-]. exists tt, st, ct. auto.
Qed.

(** C1. For a row that is kept, the identifier found for its sender is the
    first success among: exact lookup of the heavily normalised sender
    name, exact lookup of its first token, exact lookup of the lightly
    normalised name, and the first key in insertion order that is a
    substring of the heavily normalised name or has it as a substring.
    The sender name is the text of the sender cell without its trailing
    colons and surrounding white space. *)
Theorem attribution_order (m : dict) (user date : str) (row : Row) (t : Turn) :
  process_row m user date row = Some t ->
  (exists sender_text,
      sender_th row = Some sender_text
      /\ sender_display_name_from_msg t = sender_of sender_text)
  /\ identified_sender_identifier t
     = first_success (attribution_attempts m (sender_display_name_from_msg t)).
Proof.
  intros H. apply process_row_Some in H
    as (tt & st & ct & _ & Hs & _ & _ & ->); simpl.
  split; [eauto|]. apply identify_attempts.
Qed.

(** C9. When the heavily normalised sender name is empty and the lightly
    normalised one is not a key, a non-empty participant map of a session
    attributes the message to the identifier of its first entry: the
    substring fallback accepts the first key, so the sender is never left
    without an identifier. *)
Theorem empty_name_takes_first_entry (ul : option (list str)) (sender : str) :
  build_participant_map ul <> [] ->
  sender_name_v2 sender = [] ->
  dict_contains (build_participant_map ul) (sender_name_v1 sender) = false ->
  exists k v rest,
    build_participant_map ul = (k, v) :: rest
    /\ substring_fallback (build_participant_map ul) (sender_name_v2 sender)
       = Some v
    /\ identify (build_participant_map ul) sender = Some v.
Proof.
  intros Hne H2 H1.
  pose proof (keys_truthy_no_empty_key (build_keys_truthy ul)) as Hk.
  destruct (build_participant_map ul) as [|[k v] rest] eqn:E; [congruence|].
  exists k, v, rest. split; [reflexivity|].
  assert (Hf : substring_fallback ((k, v) :: rest) (sender_name_v2 sender) = Some v).
  { rewrite H2. simpl. rewrite str_in_nil, orb_true_r. reflexivity. }
  split; [exact Hf|].
  unfold identify, sender_name_v3. rewrite H2 in *. unfold first_word; simpl truthy.
  cbv iota. rewrite Hk, H1. exact Hf.
Qed.

End ParticipantMap.

(** ** The matcher *)

Section MatcherProperties.
Variable A : Type.

Lemma rep_greedy_inv (p : char -> bool) (s : str) :
  forall lo hi (k : str -> option A) x,
    rep_greedy p s lo hi k = Some x ->
    exists s', k s' = Some x /\ length s' + lo <= length s.
Proof.
  induction s as [|c s IH]; intros lo hi k x; simpl.
  - destruct lo; [|discriminate]. intros H. exists []. auto.
  - assert (Hstop : match lo with O => k (c :: s) | S _ => None end = Some x ->
                    exists s', k s' = Some x /\ length s' + lo <= S (length s)).
    { destruct lo; [|discriminate]. intros H. exists (c :: s). simpl. split; [exact H | lia]. }
    destruct (p c && may_repeat hi); [|exact Hstop].
    destruct (rep_greedy p s (pred lo) (option_map pred hi) k) as [r|] eqn:E;
      [|exact Hstop].
    intros [= ->]. apply IH in E as (s' & Hk & Hl). exists s'. split; [exact Hk | lia].
Qed.

Lemma rep_lazy_inv (p : char -> bool) (s : str) :
  forall lo hi (k : str -> option A) x,
    rep_lazy p s lo hi k = Some x ->
    exists s', k s' = Some x /\ length s' + lo <= length s.
Proof.
  induction s as [|c s IH]; intros lo hi k x; simpl.
  - destruct lo; [|discriminate]. destruct (k []) eqn:E; [|discriminate].
    intros [= ->]. exists []. auto.
  - destruct (match lo with O => k (c :: s) | S _ => None end) as [r|] eqn:E.
    + destruct lo; [|discriminate]. intros [= ->]. exists (c :: s). simpl.
      split; [exact E | lia].
    + destruct (p c && may_repeat hi); [|discriminate].
      intros H. apply IH in H as (s' & Hk & Hl). exists s'. split; [exact Hk | lia].
Qed.

(** A successful match hands the continuation a shorter input. *)
Lemma exec_inv (r : regex) :
  forall s g (k : str -> option str -> option A) x,
    exec r s g k = Some x ->
    exists s' g', k s' g' = Some x /\ length s' + min_len r <= length s.
Proof.
  induction r as [|p|greedy lo hi p| |r1 IH1 r2 IH2|r1 IH1 r2 IH2|r1 IH1];
    intros s g k x; simpl.
  - intros H. exists s, g. split; [exact H | lia].
  - destruct s as [|c s]; [discriminate|]. destruct (p c); [|discriminate].
    intros H. exists s, g. simpl. split; [exact H | lia].
  - intros H. destruct greedy.
    + apply rep_greedy_inv in H as (s' & Hk & Hl). eauto.
    + apply rep_lazy_inv in H as (s' & Hk & Hl). eauto.
  - destruct (at_end s); [|discriminate].
    intros H. exists s, g. split; [exact H | lia].
  - intros H. apply IH1 in H as (s1 & g1 & H & Hl1).
    apply IH2 in H as (s2 & g2 & H & Hl2).
    exists s2, g2. split; [exact H | lia].
  - destruct (exec r1 s g k) as [y|] eqn:E.
    + intros [= ->]. apply IH1 in E as (s' & g' & H & Hl).
      exists s', g'. split; [exact H | lia].
    + intros H. apply IH2 in H as (s' & g' & H & Hl).
      exists s', g'. split; [exact H | lia].
  - intros H. apply IH1 in H as (s' & g' & H & Hl). eauto.
Qed.

End MatcherProperties.

Lemma exec_cat (A : Type) (r1 r2 : regex) s g (k : str -> option str -> option A) :
  exec (r1 +> r2) s g k = exec r1 s g (fun s' g' => exec r2 s' g' k).
Proof. reflexivity. Qed.

Lemma exec_grp (A : Type) (r : regex) s g (k : str -> option str -> option A) :
  exec (Grp r) s g k =
  exec r s g (fun s' _ => k s' (Some (firstn (length s - length s') s))).
Proof. reflexivity. Qed.

Lemma search_go_inv (r : regex) (s : str) :
  forall before m,
    search_go r before s = Some m ->
    exists s', match_at false r s' = Some (m_after m, m_group1 m).
Proof.
  induction s as [|c s IH]; intros before m; simpl.
  - destruct (match_at false r []) as [[rest g]|] eqn:E; [|discriminate].
    intros [= <-]. exists []. exact E.
  - destruct (match_at false r (c :: s)) as [[rest g]|] eqn:E.
    + intros [= <-]. exists (c :: s). exact E.
    + apply IH.
Qed.

Section Identifiers.
Context {U : Unicode} {D : Datetime}.

(** The group of [identifier_re] is set by every match and holds at
    least five characters. *)
Lemma identifier_group1 (s : str) (m : match_object) :
  search identifier_re s = Some m ->
  exists g, m_group1 m = Some g /\ g <> [].
Proof.
  intros H. apply search_go_inv in H as (s0 & H).
  unfold match_at, identifier_re in H.
  set (R := Plus (except ")") +> Chr (only "@") +> Plus (except ")")
            +> Chr (only ".") +> Plus (except ")")) in H.
  rewrite exec_cat in H. apply exec_inv in H as (s1 & g1 & H & _).
  rewrite exec_cat, exec_grp in H. apply exec_inv in H as (s2 & g2 & H & L).
  simpl in H. destruct s2 as [|c s2]; [discriminate|].
  destruct (only ")" c); [|discriminate].
  injection H as _ Hg.
  eexists. split; [symmetry; exact Hg|].
  intros E. apply (f_equal (@length _)) in E. rewrite length_firstn in E.
  subst R. simpl in E, L. lia.
Qed.

(** Lower-casing a non-empty string gives a non-empty string. *)
Lemma lower_go_truthy (s before : str) :
  s <> [] -> lower_go before s <> [].
Proof.
  destruct s as [|c s]; [congruence|]. intros _. simpl.
  destruct (chr_eqb c SIGMA); discriminate.
Qed.

Lemma truthy_iff (s : str) : truthy s = true <-> s <> [].
Proof. destruct s; simpl; split; congruence. Qed.

Lemma register_values_truthy (m : dict) (k v : str) :
  (truthy k = true -> truthy v = true) ->
  values_truthy m -> values_truthy (register m k v).
Proof.
  intros Hv H. rewrite register_spec. destruct (truthy k); simpl; [|assumption].
  destruct (dict_contains m k); simpl; [assumption|].
  apply Forall_app; split; [assumption|]. constructor; [auto | constructor].
Qed.

Lemma add_participant_values_truthy (m : dict) (li : str) :
  values_truthy m -> values_truthy (add_participant m li).
Proof.
  intros H. unfold add_participant.
  destruct (search identifier_re li) as [mo|] eqn:E.
  - apply identifier_group1 in E as (g & Hg & Hne).
    assert (Hid : truthy (lower (group1 mo)) = true).
    { apply truthy_iff. unfold group1. rewrite Hg. apply lower_go_truthy; assumption. }
    auto using register_values_truthy.
  - apply register_values_truthy; auto.
Qed.

Lemma build_values_truthy (ul : option (list str)) :
  values_truthy (build_participant_map ul).
Proof.
  destruct ul as [lis|]; simpl; [|constructor].
  assert (G : forall m, values_truthy m ->
                        values_truthy (fold_left add_participant lis m)).
  { induction lis as [|li lis IH]; intros m H; simpl; [assumption|].
    apply IH, add_participant_values_truthy; assumption. }
  apply G. constructor.
Qed.

Lemma substring_fallback_In (m : dict) (name v : str) :
  substring_fallback m name = Some v -> exists k, In (k, v) m.
Proof.
  induction m as [|[k' v'] m IH]; simpl; [discriminate|].
  destruct (str_in k' name || str_in name k').
  - intros [= ->]. eauto.
  - intros H. apply IH in H as [k H]. eauto.
Qed.

Lemma identify_In (m : dict) (sender v : str) :
  identify m sender = Some v -> exists k, In (k, v) m.
Proof.
  unfold identify.
  destruct (dict_contains m (sender_name_v2 sender));
    [eauto using dict_getitem_In|].
  destruct (dict_contains m (sender_name_v3 sender));
    [eauto using dict_getitem_In|].
  destruct (dict_contains m (sender_name_v1 sender));
    [eauto using dict_getitem_In|].
  apply substring_fallback_In.
Qed.

Lemma from_field_cases (user : str) (identified : option str) :
  from_field user identified = lit "gpt"
  \/ from_field user identified = lit "human".
Proof.
  unfold from_field. destruct identified as [v|]; [|auto].
  destruct (truthy v && str_eqb (lower user) (lower v)); auto.
Qed.

(** C2. A message that is kept is labelled ["gpt"] exactly when an
    identifier was found for its sender and the lower-cased identifier
    equals the lower-cased self identifier; otherwise, and in particular
    when no identifier was found, it is labelled ["human"].  The
    identifiers come from the participant map of the session, where none
    is empty. *)
Theorem label_gpt_iff_self (ul : option (list str)) (user date : str)
    (row : Row) (t : Turn) :
  process_row (build_participant_map ul) user date row = Some t ->
  (from (message t) = lit "gpt" <->
   exists identifier,
     identified_sender_identifier t = Some identifier
     /\ lower user = lower identifier)
  /\ (from (message t) <> lit "gpt" -> from (message t) = lit "human")
  /\ (identified_sender_identifier t = None -> from (message t) = lit "human").
Proof.
  intros H. apply process_row_Some in H
    as (tt & st & ct & _ & _ & _ & _ & ->); simpl.
  set (sender := sender_of st).
  split; [|split].
  - unfold from_field. destruct (identify _ sender) as [v|] eqn:E.
    + assert (Hv : truthy v = true).
      { apply identify_In in E as [k Hin].
        pose proof (build_values_truthy ul) as Hall.
        unfold values_truthy in Hall. rewrite Forall_forall in Hall.
        apply (Hall _ Hin). }
      rewrite Hv; simpl.
      destruct (str_eqb (lower user) (lower v)) eqn:Eq.
      * apply str_eqb_eq in Eq. split; [eauto | reflexivity].
      * apply str_eqb_neq in Eq. split; [discriminate|].
        intros (i & [= <-] & Hi). contradiction.
    + split; [discriminate | intros (i & Hi & _); discriminate].
  - intros Hn. destruct (from_field_cases user (identify (build_participant_map ul) sender));
      [contradiction | assumption].
  - intros ->. reflexivity.
Qed.

End Identifiers.

(** ** Writing the files *)

Lemma firstn_skipn_add (X : Type) (a b : nat) (l : list X) :
  firstn a l ++ firstn b (skipn a l) = firstn (a + b) l.
Proof.
  revert l; induction a as [|a IH]; intros l; simpl; [reflexivity|].
  destruct l as [|x l]; simpl.
  - rewrite firstn_nil. reflexivity.
  - rewrite IH. reflexivity.
Qed.

Lemma concat_pieces (X : Type) (step m : nat) (l : list X) :
  concat (map (fun j => firstn step (skipn (j * step) l)) (seq 0 m))
  = firstn (m * step) l.
Proof.
  induction m as [|m IH]; [reflexivity|].
  rewrite seq_S, map_app, concat_app, IH. simpl.
  rewrite app_nil_r, firstn_skipn_add. f_equal. lia.
Qed.

Lemma range_40 (n : nat) :
  range 0 n 40 = map (fun j => j * 40) (seq 0 ((n + 39) / 40)).
Proof.
  unfold range. replace (n - 0 + 40 - 1) with (n + 39) by lia. reflexivity.
Qed.

Lemma chunk_bound (n j : nat) : j < (n + 39) / 40 -> 40 * j < n.
Proof.
  intros H. pose proof (Nat.Div0.mul_div_le (n + 39) 40). lia.
Qed.

Lemma chunks_cover (n : nat) : n <= ((n + 39) / 40) * 40.
Proof.
  pose proof (Nat.div_mod_eq (n + 39) 40).
  pose proof (Nat.mod_upper_bound (n + 39) 40). lia.
Qed.

Lemma piece_length (X : Type) (l : list X) (i : nat) :
  length (firstn 40 (skipn i l)) = Nat.min 40 (length l - i).
Proof. rewrite length_firstn, length_skipn. reflexivity. Qed.

Section Files.
Context {U : Unicode} {D : Datetime}.

Lemma write_chunk_contents (path : str) (convs : list Message)
    (offsets : list nat) :
  map snd (flat_map (write_chunk path convs) offsets)
  = filter (fun c => 3 <=? length c)
      (map (fun i => firstn 40 (skipn i convs)) offsets).
Proof.
  induction offsets as [|i offsets IH]; [reflexivity|].
  cbn [flat_map map filter]. rewrite map_app. unfold write_chunk at 1.
  rewrite Nat.ltb_antisym.
  destruct (3 <=? length _); simpl; [f_equal|]; exact IH.
Qed.

Lemma filter_map_length (X : Type) (p : nat -> bool) (l : list (list X)) :
  map (@length X) (filter (fun c => p (length c)) l)
  = filter p (map (@length X) l).
Proof.
  induction l as [|c l IH]; simpl; [reflexivity|].
  destruct (p (length c)); simpl; rewrite IH; reflexivity.
Qed.

Lemma pieces_sizes (convs : list Message) :
  map (@length _) (map (fun i => firstn 40 (skipn i convs))
                     (range 0 (length convs) 40))
  = chunk_sizes (length convs).
Proof.
  rewrite range_40. unfold chunk_sizes. rewrite !map_map.
  apply map_ext. intros j. rewrite piece_length. f_equal. lia.
Qed.

Lemma split_sizes (path : str) (convs : list Message) :
  40 < length convs ->
  map (fun f => length (snd f)) (save_conversations path convs)
  = filter (fun k => 3 <=? k) (chunk_sizes (length convs)).
Proof.
  intros H. unfold save_conversations.
  apply Nat.ltb_lt in H. rewrite H.
  rewrite <- (map_map snd (@length _)), write_chunk_contents.
  rewrite (filter_map_length (fun k => 3 <=? k)), pieces_sizes. reflexivity.
Qed.


End Files.

(** ** Rows, noise and dates *)

Section Rows.
Context {U : Unicode} {D : Datetime}.

Lemma filter_map_In (X Y : Type) (f : X -> option Y) (l : list X) (y : Y) :
  In y (filter_map f l) -> exists x, In x l /\ f x = Some y.
Proof.
  induction l as [|x l IH]; simpl; [tauto|].
  destruct (f x) as [y'|] eqn:E.
  - intros [<-|H]; [eauto|]. apply IH in H as (x' & H1 & H2). eauto.
  - intros H. apply IH in H as (x' & H1 & H2). eauto.
Qed.

Lemma In_skipn (X : Type) (n : nat) (l : list X) (x : X) :
  In x (skipn n l) -> In x l.
Proof.
  revert l; induction n as [|n IH]; intros [|y l]; simpl; auto.
Qed.

Lemma In_firstn (X : Type) (n : nat) (l : list X) (x : X) :
  In x (firstn n l) -> In x l.
Proof.
  revert l; induction n as [|n IH]; intros [|y l]; simpl; try tauto.
  intros [->|H]; auto.
Qed.

(** Whatever is written was in the sequence of kept messages. *)
Lemma saved_In (path : str) (convs : list Message) (f : file) (msg : Message) :
  In f (save_conversations path convs) -> In msg (snd f) -> In msg convs.
Proof.
  unfold save_conversations. destruct (40 <? length convs).
  - intros Hf. apply in_flat_map in Hf as (i & _ & Hf). unfold write_chunk in Hf.
    destruct (length _ <? 3); [destruct Hf|].
    destruct Hf as [<-|[]]. cbn [snd]. intros H.
    eapply In_skipn, In_firstn, H.
  - destruct (length convs <? 3); [intros []|].
    intros [<-|[]]. auto.
Qed.

(** Every message written has passed the noise filter. *)
Lemma written_not_noise (soup : option (list Session)) (path user : str)
    (f : file) (msg : Message) :
  In f (html_to_json soup path user) -> In msg (snd f) ->
  is_noise (value msg) = false.
Proof.
  destruct soup as [sessions|]; simpl; [|tauto].
  intros Hf Hm. pose proof (saved_In _ _ _ _ Hf Hm) as H.
  apply in_flat_map in H as (session & _ & H).
  unfold session_conversations in H. apply in_map_iff in H as (t & <- & H).
  apply filter_map_In in H as (row & _ & H).
  apply process_row_Some in H as (tt & st & ct & _ & _ & _ & Hn & ->).
  exact Hn.
Qed.

(** C6. A row whose trimmed, lower-cased text begins with ["http://"],
    ["https://"] or ["ping? [request]"], for instance one whose trimmed,
    lower-cased text is ["https://example.com"], is skipped whatever the
    participant map, and no file written for any document holds a message
    with that text. *)
Theorem noise_is_discarded (row : Row) (content_text : str) :
  content_td row = Some content_text ->
  startswith (lower (strip content_text)) (lit "http://") = true
  \/ startswith (lower (strip content_text)) (lit "https://") = true
  \/ startswith (lower (strip content_text)) (lit "ping? [request]") = true
  \/ lower (strip content_text) = lit "https://example.com" ->
  (forall m user date, process_row m user date row = None)
  /\ (forall soup path user f msg,
         In f (html_to_json soup path user) -> In msg (snd f) ->
         value msg <> content_text).
Proof.
  intros Hc H.
  assert (Hn : is_noise content_text = true).
  { unfold is_noise. destruct H as [H|[H|[H|H]]]; rewrite H.
    - reflexivity.
    - rewrite orb_true_r. reflexivity.
    - apply orb_true_r.
    - reflexivity. }
  split.
  - intros m user date. unfold process_row. rewrite Hc.
    destruct (existsb _ _); [reflexivity|].
    destruct (time_tag row); [|reflexivity].
    destruct (sender_th row); [|reflexivity].
    rewrite Hn. reflexivity.
  - intros soup path user f msg Hf Hm E.
    pose proof (written_not_noise _ _ _ _ _ Hf Hm) as Hv. congruence.
Qed.

Lemma startswith_app (a b : str) : startswith (a ++ b) a = true.
Proof.
  induction a as [|c a IH]; simpl; [apply startswith_nil|].
  unfold chr_eqb. rewrite N.eqb_refl. exact IH.
Qed.

Lemma session_turns_In (user : str) (session : Session) (t : Turn) :
  In t (session_turns user session) ->
  exists row,
    In row (session_tr session)
    /\ process_row (build_participant_map (session_ul session)) user
         (session_date_of (session_h2 session)) row = Some t.
Proof. apply filter_map_In. Qed.

Lemma process_row_date (m : dict) (user date date' : str) (row : Row) :
  option_map attribution_of (process_row m user date row)
  = option_map attribution_of (process_row m user date' row).
Proof.
  unfold process_row. destruct (existsb _ _); [reflexivity|].
  destruct (time_tag row); [|reflexivity].
  destruct (sender_th row); [|reflexivity].
  destruct (content_td row); [|reflexivity].
  destruct (is_noise _); reflexivity.
Qed.

Lemma filter_map_ext_map (X Y Z : Type) (f f' : X -> option Y) (g : Y -> Z)
    (l : list X) :
  (forall x, option_map g (f x) = option_map g (f' x)) ->
  map g (filter_map f l) = map g (filter_map f' l).
Proof.
  intros H. induction l as [|x l IH]; simpl; [reflexivity|].
  specialize (H x). destruct (f x), (f' x); simpl in *; try discriminate.
  - injection H as ->. rewrite IH. reflexivity.
  - exact IH.
Qed.

(** C8. When the header text of a session has no match for the date
    pattern, or the matched text is refused by [strptime], nothing is
    raised: the session date is ["UNKNOWN_DATE"], the timestamp of every
    row kept begins with it, and the rows are kept and attributed exactly
    as they are under any other header. *)
Theorem unparseable_date_is_unknown (user : str) (session : Session)
    (text : str) :
  session_h2 session = Some text ->
  search date_re text = None
  \/ (exists date_str_match,
         search date_re text = Some date_str_match
         /\ strptime_dBY (translate_months (m_group0 date_str_match)) = None) ->
  session_date_of (session_h2 session) = UNKNOWN_DATE
  /\ Forall (fun t => startswith (full_timestamp t) UNKNOWN_DATE = true)
       (session_turns user session)
  /\ forall h2,
       map attribution_of (session_turns user session)
       = map attribution_of (session_turns user (with_h2 h2 session)).
Proof.
  intros Hh H.
  assert (Hd : session_date_of (session_h2 session) = UNKNOWN_DATE).
  { rewrite Hh. simpl. destruct H as [->|(mo & -> & ->)]; reflexivity. }
  split; [exact Hd|]. split.
  - apply Forall_forall. intros t Ht. apply session_turns_In in Ht as (row & _ & Ht).
    apply process_row_Some in Ht as (tt & st & ct & _ & _ & _ & _ & ->); simpl.
    rewrite Hd. unfold timestamp_of. apply startswith_app.
  - intros h2. unfold session_turns. simpl.
    apply filter_map_ext_map. intros row. apply process_row_date.
Qed.

End Rows.

(** ** Registering a key *)

Lemma register_contains_other (m : dict) (k v k0 : str) :
  k <> k0 -> dict_contains (register m k v) k0 = dict_contains m k0.
Proof.
  intros Hne. rewrite register_spec.
  destruct (truthy k && negb (dict_contains m k)); [|reflexivity].
  induction m as [|[k' v'] m IH]; simpl.
  - apply str_eqb_neq in Hne. rewrite Hne. reflexivity.
  - rewrite IH. reflexivity.
Qed.

Lemma register_new_getitem (m : dict) (k v : str) :
  truthy k = true -> dict_contains m k = false ->
  dict_getitem (register m k v) k = Some v.
Proof.
  intros Ht Hc. rewrite register_spec, Ht, Hc. simpl.
  induction m as [|[k' v'] m IH]; simpl.
  - rewrite str_eqb_refl. reflexivity.
  - simpl in Hc. apply orb_false_iff in Hc as [Hk Hc]. rewrite Hk. auto.
Qed.

(** ** The scenario of the specification, with CPython's tables *)

(** C7, as stated, fails: a namesake in the same roster takes the
    sender. *)
Lemma jane_with_namesake :
  let roster := [jane_entry; lit "Jane D (jd@example.org)"] in
  In jane_entry roster
  /\ identify (build_participant_map (Some roster)) (sender_of jane_cell)
     = Some (lit "jd@example.org")
  /\ identify (build_participant_map (Some roster)) (sender_of jane_cell)
     <> Some jane_identifier.
Proof.
  split; [left; reflexivity|]. split; [reflexivity|].
  vm_compute. discriminate.
Qed.

(** A second entry of Jane's own that registers ["jane d"] changes
    nothing: the heavily normalised name is then found, with her
    identifier. *)
Example jane_with_alias :
  let m := build_participant_map
             (Some [jane_entry; lit "Jane D (Jane.Doe@Example.com)"]) in
  dict_getitem m (sender_name_v2 (sender_of jane_cell)) = Some jane_identifier
  /\ identify m (sender_of jane_cell) = Some jane_identifier.
Proof. split; reflexivity. Qed.

(** ** Stripping *)

Section Dropwhile.
Variable p : char -> bool.

Lemma dropwhile_suffix (s : str) : exists front, s = front ++ dropwhile p s.
Proof.
  induction s as [|c s [front IH]]; simpl.
  - exists []. reflexivity.
  - destruct (p c).
    + exists (c :: front). simpl. congruence.
    + exists []. reflexivity.
Qed.

Lemma dropwhile_head (s r : str) (c : char) :
  dropwhile p s = c :: r -> p c = false.
Proof.
  induction s as [|a s IH]; simpl; [discriminate|].
  destruct (p a) eqn:E; [exact IH|]. intros [= <- _]. exact E.
Qed.

Lemma dropwhile_app_stop (l : str) (c : char) :
  p c = false -> dropwhile p (l ++ [c]) = dropwhile p l ++ [c].
Proof.
  intros H. induction l as [|a l IH]; simpl.
  - rewrite H. reflexivity.
  - destruct (p a); [exact IH | reflexivity].
Qed.

Lemma rstrip_prefix (s : str) : exists tail, s = rstrip_of p s ++ tail.
Proof.
  unfold rstrip_of. destruct (dropwhile_suffix (rev s)) as [front H].
  exists (rev front). rewrite <- rev_app_distr, <- H, rev_involutive. reflexivity.
Qed.

Lemma rstrip_last (s r : str) (c : char) :
  rstrip_of p s = r ++ [c] -> p c = false.
Proof.
  unfold rstrip_of. intros H. apply (f_equal (@rev _)) in H.
  rewrite rev_involutive, rev_app_distr in H. simpl in H.
  eapply dropwhile_head, H.
Qed.

Lemma rstrip_cons (c : char) (r : str) :
  p c = false -> rstrip_of p (c :: r) = c :: rstrip_of p r.
Proof.
  intros H. unfold rstrip_of. simpl. rewrite dropwhile_app_stop by assumption.
  rewrite rev_app_distr. reflexivity.
Qed.

Lemma strip_of_In (s : str) (c : char) : In c (strip_of p s) -> In c s.
Proof.
  intros H. destruct (rstrip_prefix (lstrip_of p s)) as [tail Ht].
  destruct (dropwhile_suffix s) as [front Hf].
  rewrite Hf. apply in_or_app. right. unfold lstrip_of in Ht. rewrite Ht.
  apply in_or_app. left. exact H.
Qed.

End Dropwhile.

Section Tidy.
Context {U : Unicode}.

Lemma strip_In (s : str) (c : char) : In c (strip s) -> In c s.
Proof. apply strip_of_In. Qed.

Lemma strip_ends (s : str) : ends_unspaced (strip s).
Proof.
  split.
  - intros c r H. unfold strip, strip_of, lstrip_of in H.
    destruct (dropwhile isspace s) as [|a l] eqn:E; [discriminate H|].
    pose proof E as Ha. apply dropwhile_head in Ha.
    rewrite rstrip_cons in H by assumption. injection H as <- _. exact Ha.
  - intros r c H. eapply rstrip_last, H.
Qed.

Lemma strip_id (s : str) : ends_unspaced s -> strip s = s.
Proof.
  intros [Hh Hl]. unfold strip, strip_of, lstrip_of, rstrip_of.
  destruct s as [|c r]; [reflexivity|].
  simpl dropwhile at 2. rewrite (Hh c r eq_refl).
  destruct (rev (c :: r)) as [|d l] eqn:E.
  - apply (f_equal (@rev _)) in E. rewrite rev_involutive in E. discriminate E.
  - assert (Es : c :: r = rev l ++ [d]).
    { rewrite <- (rev_involutive (c :: r)), E. reflexivity. }
    simpl. rewrite (Hl _ _ Es). simpl. symmetry. exact Es.
Qed.

Lemma single_spaced_app_r (a b : str) :
  single_spaced (a ++ b) -> single_spaced b.
Proof.
  induction a as [|c a IH]; simpl; [tauto|]. intros [_ H]. auto.
Qed.

Lemma single_spaced_app_l (a b : str) :
  single_spaced (a ++ b) -> single_spaced a.
Proof.
  induction a as [|c a IH]; simpl; [tauto|]. intros [H1 H2]. split; [|auto].
  destruct a as [|d a]; [exact I | exact H1].
Qed.

Lemma strip_single_spaced (s : str) :
  single_spaced s -> single_spaced (strip s).
Proof.
  intros H. unfold strip, strip_of.
  destruct (rstrip_prefix isspace (lstrip_of isspace s)) as [tail Ht].
  destruct (dropwhile_suffix isspace s) as [front Hf].
  rewrite Hf in H. apply single_spaced_app_r in H.
  unfold lstrip_of in Ht. rewrite Ht in H. apply single_spaced_app_l in H.
  exact H.
Qed.

End Tidy.

(** ** Substitution *)

Section Substitution.
Context {U : Unicode}.

(** With an empty replacement [re.sub] only removes characters. *)
Lemma sub_go_In (r : regex) (c : char) (s : str) :
  forall n, In c (sub_go r [] s n) -> In c s.
Proof.
  induction s as [|a s IH]; intros n.
  - destruct n; simpl; [|tauto].
    destruct (match_at false r []) as [[rest g]|]; [|tauto].
    destruct (match_at true r []) as [[rest' g']|]; simpl; tauto.
  - destruct n as [|n]; [|simpl; intros H; right; eapply IH, H].
    cbn [sub_go app].
    destruct (match_at false r (a :: s)) as [[rest g]|].
    + destruct (length (a :: s) - length rest).
      * destruct (match_at true r (a :: s)) as [[rest' g']|].
        -- intros H. right. eapply IH, H.
        -- intros [->|H]; [left; reflexivity | right; eapply IH, H].
      * intros H. right. eapply IH, H.
    + intros [->|H]; [left; reflexivity | right; eapply IH, H].
Qed.

Lemma sub_In (r : regex) (c : char) (s : str) : In c (sub r [] s) -> In c s.
Proof. apply sub_go_In. Qed.

(** Where the pattern matches nowhere, [re.sub] changes nothing. *)
Lemma sub_no_match (r : regex) (repl : str) (Q : char -> Prop) (s : str) :
  (forall t, Forall Q t -> match_at false r t = None) ->
  Forall Q s -> sub r repl s = s.
Proof.
  intros Hn. unfold sub. induction s as [|a s IH]; intros H.
  - simpl. rewrite (Hn [] H). reflexivity.
  - cbn [sub_go]. rewrite (Hn _ H). f_equal. apply IH.
    inversion H; assumption.
Qed.

Lemma match_special (s : str) :
  match_at false special_re s =
  match s with
  | c :: s' => if re_w c || re_s c then None else Some (s', None)
  | [] => None
  end.
Proof.
  destruct s as [|c s]; [reflexivity|].
  unfold match_at, special_re. simpl. destruct (re_w c || re_s c); reflexivity.
Qed.

Lemma sub_special (s : str) :
  sub special_re [] s = filter (fun c => re_w c || re_s c) s.
Proof.
  unfold sub. induction s as [|c s IH].
  - simpl. reflexivity.
  - cbn [sub_go filter]. rewrite match_special.
    destruct (re_w c || re_s c).
    + f_equal. exact IH.
    + replace (length (c :: s) - length s) with 1 by (cbn [length]; lia).
      simpl. exact IH.
Qed.

Lemma rep_greedy_all (X : Type) (p : char -> bool) (f : str -> X) (s : str) :
  rep_greedy p s 0 None (fun s' => Some (f s')) = Some (f (dropwhile p s)).
Proof.
  induction s as [|c s IH]; simpl; [reflexivity|].
  destruct (p c); simpl; [|reflexivity]. rewrite IH. reflexivity.
Qed.

Lemma match_spaces (s : str) :
  match_at false spaces_re s =
  match s with
  | c :: s' => if isspace c then Some (dropwhile isspace s', None) else None
  | [] => None
  end.
Proof.
  destruct s as [|c s]; [reflexivity|].
  unfold match_at, spaces_re. simpl. unfold re_s at 1.
  destruct (isspace c); simpl; [|reflexivity].
  rewrite (rep_greedy_all re_s (fun s' => (s', @None str))). reflexivity.
Qed.

Lemma run_length (s : str) : length (dropwhile isspace s) + run s = length s.
Proof.
  induction s as [|c s IH]; simpl; [reflexivity|].
  destruct (isspace c); simpl; lia.
Qed.

Lemma squeeze_unspaced (s : str) :
  (forall c r, s = c :: r -> isspace c = false) ->
  squeeze true s = squeeze false s.
Proof.
  destruct s as [|c s]; [reflexivity|]. intros H. simpl.
  rewrite (H c s eq_refl). reflexivity.
Qed.

Lemma sub_spaces_squeeze (s : str) :
  sub_go spaces_re [32%N] s 0 = squeeze false s
  /\ sub_go spaces_re [32%N] s (run s) = squeeze true s.
Proof.
  induction s as [|c s [IH0 IHr]].
  - split; reflexivity.
  - assert (H0 : sub_go spaces_re [32%N] (c :: s) 0 = squeeze false (c :: s)).
    { cbn [sub_go squeeze]. rewrite match_spaces. destruct (isspace c).
      - replace (length (c :: s) - length (dropwhile isspace s))
          with (S (run s)) by (pose proof (run_length s); cbn [length]; lia).
        simpl. rewrite IHr. reflexivity.
      - rewrite IH0. reflexivity. }
    split; [exact H0|].
    cbn [run]. destruct (isspace c) eqn:E.
    + cbn [sub_go squeeze]. rewrite E. exact IHr.
    + rewrite H0. simpl. rewrite E. reflexivity.
Qed.

Lemma sub_spaces (s : str) : sub spaces_re (lit " ") s = squeeze false s.
Proof. apply sub_spaces_squeeze. Qed.

Lemma squeeze_In (c : char) (s : str) :
  forall b, In c (squeeze b s) -> c = 32%N \/ (In c s /\ isspace c = false).
Proof.
  induction s as [|a s IH]; intros b; simpl; [tauto|].
  destruct (isspace a) eqn:E.
  - destruct b.
    + intros H. apply IH in H. tauto.
    + intros [<-|H]; [auto|]. apply IH in H. tauto.
  - intros [<-|H]; [auto|]. apply IH in H. tauto.
Qed.

Lemma squeeze_single_spaced (s : str) :
  forall b,
    single_spaced (squeeze b s)
    /\ (b = true -> forall c r, squeeze b s = c :: r -> isspace c = false).
Proof.
  induction s as [|a s IH]; intros b; [simpl; split; [exact I | discriminate]|].
  cbn [squeeze]. destruct (isspace a) eqn:E.
  - destruct b; [apply IH|].
    destruct (IH true) as [Hs Hh]. split; [|discriminate].
    cbn [single_spaced]. split; [|exact Hs].
    destruct (squeeze true s) as [|d z] eqn:Ez; [exact I|].
    rewrite (Hh eq_refl d z eq_refl). apply andb_false_r.
  - destruct (IH false) as [Hs _]. split.
    + cbn [single_spaced]. split; [|exact Hs].
      destruct (squeeze false s); [exact I|]. rewrite E. reflexivity.
    + intros _ c r [= <- _]. exact E.
Qed.

(** Without the first character of [old], nothing is replaced. *)
Lemma replace_absent (a : char) (old new s : str) :
  Forall (fun c => c <> a) s -> replace (a :: old) new s = s.
Proof.
  unfold replace. induction 1 as [|c s Hc _ IH]; [reflexivity|].
  cbn [replace_go startswith].
  assert (E : chr_eqb a c = false).
  { unfold chr_eqb. apply N.eqb_neq. congruence. }
  rewrite E. simpl. f_equal. exact IH.
Qed.

Lemma replace_go_In (old new s : str) (c : char) :
  forall n, In c (replace_go old new s n) -> In c s \/ In c new.
Proof.
  induction s as [|a s IH]; intros n; [simpl; tauto|].
  cbn [replace_go]. destruct n as [|n].
  - destruct (startswith (a :: s) old).
    + intros H. apply in_app_or in H as [H|H]; [auto|].
      apply IH in H. simpl. tauto.
    + intros [<-|H]; [simpl; auto|]. apply IH in H. simpl. tauto.
  - intros H. apply IH in H. simpl. tauto.
Qed.

Lemma replace_In (a : char) (old new s : str) (c : char) :
  In c (replace (a :: old) new s) -> In c s \/ In c new.
Proof. apply replace_go_In. Qed.

End Substitution.

(** ** Tables that agree on the characters of a string

    What the program computes from a string depends on the tables only
    through the characters of that string. *)

Section Agreement.
Variable P : char -> Prop.

Lemma dropwhile_agree (p q : char -> bool) (s : str) :
  (forall c, P c -> p c = q c) -> Forall P s -> dropwhile p s = dropwhile q s.
Proof.
  intros H. induction 1 as [|c s Hc _ IH]; [reflexivity|].
  simpl. rewrite <- (H c Hc), IH. reflexivity.
Qed.

Lemma strip_of_agree (p q : char -> bool) (s : str) :
  (forall c, P c -> p c = q c) -> Forall P s -> strip_of p s = strip_of q s.
Proof.
  intros H Hs. unfold strip_of, rstrip_of, lstrip_of.
  rewrite <- (@dropwhile_agree p q s H Hs).
  rewrite (@dropwhile_agree p q (rev (dropwhile p s)) H); [reflexivity|].
  apply Forall_rev. apply Forall_forall. intros c Hc.
  rewrite Forall_forall in Hs. apply Hs.
  destruct (dropwhile_suffix p s) as [front Hf]. rewrite Hf.
  apply in_or_app. right. exact Hc.
Qed.

Lemma rep_greedy_agree (A : Type) (p q : char -> bool) :
  (forall c, P c -> p c = q c) ->
  forall (s : str) (lo : nat) (hi : option nat) (k k' : str -> option A),
    Forall P s -> (forall t, Forall P t -> k t = k' t) ->
    rep_greedy p s lo hi k = rep_greedy q s lo hi k'.
Proof.
  intros H s. induction s as [|c s IH]; intros lo hi k k' Hs Hk.
  - simpl. rewrite (Hk [] Hs). reflexivity.
  - cbn [rep_greedy]. rewrite (Hk (c :: s) Hs).
    rewrite <- (H c (Forall_inv Hs)).
    rewrite (IH (pred lo) (option_map pred hi) k k' (Forall_inv_tail Hs) Hk).
    reflexivity.
Qed.

Lemma rep_lazy_agree (A : Type) (p q : char -> bool) :
  (forall c, P c -> p c = q c) ->
  forall (s : str) (lo : nat) (hi : option nat) (k k' : str -> option A),
    Forall P s -> (forall t, Forall P t -> k t = k' t) ->
    rep_lazy p s lo hi k = rep_lazy q s lo hi k'.
Proof.
  intros H s. induction s as [|c s IH]; intros lo hi k k' Hs Hk.
  - simpl. rewrite (Hk [] Hs). reflexivity.
  - cbn [rep_lazy]. rewrite (Hk (c :: s) Hs).
    rewrite <- (H c (Forall_inv Hs)).
    rewrite (IH (pred lo) (option_map pred hi) k k' (Forall_inv_tail Hs) Hk).
    reflexivity.
Qed.

Lemma exec_agree (A : Type) (r r' : regex) :
  same_on P r r' ->
  forall (s : str) (g : option str) (k k' : str -> option str -> option A),
    Forall P s -> (forall t g', Forall P t -> k t g' = k' t g') ->
    exec r s g k = exec r' s g k'.
Proof.
  induction 1 as [|p q H|greedy lo hi p q H| |r1 r2 r1' r2' _ IH1 _ IH2
                  |r1 r2 r1' r2' _ IH1 _ IH2|r r' _ IH]; intros s g k k' Hs Hk.
  - simpl. apply Hk, Hs.
  - simpl. destruct s as [|c s]; [reflexivity|].
    rewrite <- (H c (Forall_inv Hs)). destruct (p c); [|reflexivity].
    apply Hk. exact (Forall_inv_tail Hs).
  - cbn [exec]. destruct greedy.
    + apply rep_greedy_agree; auto.
    + apply rep_lazy_agree; auto.
  - simpl. destruct (at_end s); [apply Hk, Hs | reflexivity].
  - cbn [exec]. apply IH1; [exact Hs|]. intros t g' Ht. apply IH2; assumption.
  - cbn [exec]. rewrite (IH1 s g k k' Hs Hk), (IH2 s g k k' Hs Hk). reflexivity.
  - cbn [exec]. apply IH; [exact Hs|]. intros t g' Ht. apply Hk, Ht.
Qed.

Lemma match_at_agree (b : bool) (r r' : regex) (s : str) :
  same_on P r r' -> Forall P s -> match_at b r s = match_at b r' s.
Proof.
  intros H Hs. unfold match_at. apply exec_agree; auto.
Qed.

Lemma sub_go_agree (r r' : regex) (repl : str) :
  same_on P r r' ->
  forall (s : str) (n : nat), Forall P s ->
    sub_go r repl s n = sub_go r' repl s n.
Proof.
  intros H s. induction s as [|c s IH]; intros n Hs.
  - destruct n; [|reflexivity]. cbn [sub_go].
    rewrite !(match_at_agree _ H Hs). reflexivity.
  - pose proof (Forall_inv_tail Hs) as Ht.
    destruct n as [|n]; [|simpl; apply IH, Ht].
    cbn [sub_go]. rewrite !(match_at_agree _ H Hs).
    destruct (match_at false r' (c :: s)) as [[rest g]|].
    + destruct (length (c :: s) - length rest).
      * destruct (match_at true r' (c :: s)) as [[rest' g']|];
          rewrite ?IH by exact Ht; reflexivity.
      * rewrite IH by exact Ht. reflexivity.
    + rewrite IH by exact Ht. reflexivity.
Qed.

Lemma sub_agree (r r' : regex) (repl s : str) :
  same_on P r r' -> Forall P s -> sub r repl s = sub r' repl s.
Proof. intros H Hs. apply sub_go_agree; assumption. Qed.

End Agreement.

Lemma sub_go_chars (r : regex) (repl : str) (c : char) (s : str) :
  forall n, In c (sub_go r repl s n) -> In c s \/ In c repl.
Proof.
  induction s as [|a s IH]; intros n.
  - destruct n; simpl; [|tauto].
    destruct (match_at false r []) as [[rest g]|]; [|tauto].
    destruct (match_at true r []) as [[rest' g']|]; simpl;
      rewrite ?in_app_iff; simpl; tauto.
  - destruct n as [|n];
      [|simpl; intros H; apply IH in H; tauto].
    cbn [sub_go].
    destruct (match_at false r (a :: s)) as [[rest g]|].
    + destruct (length (a :: s) - length rest).
      * destruct (match_at true r (a :: s)) as [[rest' g']|].
        -- rewrite !in_app_iff. intros [H|[H|H]]; auto.
           apply IH in H. simpl. tauto.
        -- rewrite in_app_iff. intros [H|[->|H]]; auto; [left; left; reflexivity|].
           apply IH in H. simpl. tauto.
      * rewrite in_app_iff. intros [H|H]; auto. apply IH in H. simpl. tauto.
    + intros [->|H]; [left; left; reflexivity|]. apply IH in H. simpl. tauto.
Qed.

Section AsciiTables.
Context {U : Unicode}.
Hypothesis tables : ascii_tables.

Lemma strip_ascii (s : str) : Forall ascii s -> strip s = @strip latin1 s.
Proof.
  intros Hs. unfold strip. apply strip_of_agree with (P := ascii); [|exact Hs].
  intros c Hc. apply tables, Hc.
Qed.

Lemma lower_go_ascii (s before before' : str) :
  Forall ascii s -> lower_go before s = @lower_go latin1 before' s.
Proof.
  revert before before'. induction s as [|c s IH]; intros b b' Hs; [reflexivity|].
  pose proof (Forall_inv Hs) as Hc. cbn [lower_go].
  assert (E : chr_eqb c SIGMA = false).
  { apply N.eqb_neq. unfold ascii, SIGMA in *. lia. }
  rewrite E. unfold tolower.
  destruct (tables Hc) as (_ & _ & ->).
  f_equal. apply IH. exact (Forall_inv_tail Hs).
Qed.

Lemma lower_ascii (s : str) : Forall ascii s -> lower s = @lower latin1 s.
Proof. apply lower_go_ascii. Qed.

Lemma suffix_re_ascii : same_on ascii suffix_re (@suffix_re latin1).
Proof.
  assert (Hs : forall c, ascii c -> re_s c = @re_s latin1 c).
  { intros c Hc. apply tables, Hc. }
  unfold suffix_re.
  repeat first [ apply same_alt | apply same_cat | apply same_eos
               | apply same_rep | apply same_chr ];
    solve [exact Hs | reflexivity].
Qed.

Lemma special_re_ascii : same_on ascii special_re (@special_re latin1).
Proof.
  apply same_chr. intros c Hc. unfold re_w, re_s.
  destruct (tables Hc) as (-> & -> & _). reflexivity.
Qed.

Lemma spaces_re_ascii : same_on ascii spaces_re (@spaces_re latin1).
Proof. apply same_rep. intros c Hc. apply tables, Hc. Qed.

Lemma clean_display_name_ascii (s : str) :
  Forall ascii s -> clean_display_name s = @clean_display_name latin1 s.
Proof.
  intros Hs. unfold clean_display_name.
  set (a := replace _ _ (replace _ _ s)).
  assert (Ha : Forall ascii a).
  { apply Forall_forall. intros c Hc. rewrite Forall_forall in Hs.
    apply replace_In in Hc as [Hc|Hc].
    - apply replace_In in Hc as [Hc|Hc]; [apply Hs, Hc|].
      simpl in Hc. destruct Hc as [<-|[]]. reflexivity.
    - simpl in Hc. destruct Hc as [<-|[]]. reflexivity. }
  assert (strip_keeps : forall t, Forall ascii t -> Forall ascii (@strip latin1 t)).
  { intros t Ht. apply Forall_forall. intros c Hc. rewrite Forall_forall in Ht.
    apply Ht. apply (@strip_In latin1 t c Hc). }
  assert (sub_keeps : forall r repl t, Forall ascii t -> Forall ascii repl ->
                                       Forall ascii (sub r repl t)).
  { intros r repl t Ht Hr. apply Forall_forall. intros c Hc.
    rewrite Forall_forall in Ht, Hr.
    apply sub_go_chars in Hc as [Hc|Hc]; auto. }
  rewrite (strip_ascii Ha).
  set (b := @strip latin1 a). assert (Hb : Forall ascii b) by (apply strip_keeps, Ha).
  rewrite (sub_agree [] suffix_re_ascii Hb).
  set (c0 := sub (@suffix_re latin1) [] b).
  assert (Hc0 : Forall ascii c0) by (apply sub_keeps; [exact Hb | constructor]).
  rewrite (strip_ascii Hc0).
  set (c1 := @strip latin1 c0). assert (Hc1 : Forall ascii c1) by (apply strip_keeps, Hc0).
  rewrite (sub_agree [] special_re_ascii Hc1).
  set (d0 := sub (@special_re latin1) [] c1).
  assert (Hd0 : Forall ascii d0) by (apply sub_keeps; [exact Hc1 | constructor]).
  rewrite (strip_ascii Hd0).
  set (d1 := @strip latin1 d0). assert (Hd1 : Forall ascii d1) by (apply strip_keeps, Hd0).
  rewrite (sub_agree (lit " ") spaces_re_ascii Hd1).
  set (e0 := sub (@spaces_re latin1) (lit " ") d1).
  assert (He0 : Forall ascii e0).
  { apply sub_keeps; [exact Hd1|]. repeat constructor. }
  rewrite (strip_ascii He0).
  apply lower_ascii, strip_keeps, He0.
Qed.


(** ** The scenario of the specification *)

Lemma ascii_checked (s : str) :
  forallb (fun c => (c <? 128)%N) s = true -> Forall ascii s.
Proof.
  intros H. apply Forall_forall. intros c Hc.
  rewrite forallb_forall in H. apply N.ltb_lt, H, Hc.
Qed.

Lemma search_jane : search identifier_re jane_entry = Some jane_match.
Proof. vm_compute. reflexivity. Qed.

Lemma add_jane (m : dict) :
  add_participant m jane_entry
  = register (register (register m (lit "jane doe") jane_identifier)
                (lit "jane doe") jane_identifier)
      (lit "jane") jane_identifier.
Proof.
  unfold add_participant. rewrite search_jane. cbv beta iota zeta.
  change (group1 jane_match) with jane_identifier.
  replace (replace (lit "(" ++ jane_identifier ++ lit ")") [] jane_entry)
    with (lit "Jane Doe ") by (vm_compute; reflexivity).
  rewrite (@lower_ascii jane_identifier) by (apply ascii_checked; reflexivity).
  rewrite (@strip_ascii (lit "Jane Doe ")) by (apply ascii_checked; reflexivity).
  replace (@strip latin1 (lit "Jane Doe ")) with (lit "Jane Doe")
    by (vm_compute; reflexivity).
  rewrite (@lower_ascii (lit "Jane Doe")) by (apply ascii_checked; reflexivity).
  rewrite (@clean_display_name_ascii (lit "Jane Doe"))
    by (apply ascii_checked; reflexivity).
  replace (@lower latin1 jane_identifier) with jane_identifier
    by (vm_compute; reflexivity).
  replace (@lower latin1 (lit "Jane Doe")) with (lit "jane doe")
    by (vm_compute; reflexivity).
  replace (@clean_display_name latin1 (lit "Jane Doe")) with (lit "jane doe")
    by (vm_compute; reflexivity).
  reflexivity.
Qed.

Lemma jane_names :
  sender_name_v2 (sender_of jane_cell) = lit "jane d"
  /\ sender_name_v3 (sender_of jane_cell) = lit "jane".
Proof.
  assert (E : sender_name_v2 (sender_of jane_cell) = lit "jane d").
  { unfold sender_name_v2, sender_of.
    replace (rstrip_of (only ":") jane_cell) with (lit "Jane D. ")
      by (vm_compute; reflexivity).
    rewrite (@strip_ascii (lit "Jane D. ")) by (apply ascii_checked; reflexivity).
    replace (@strip latin1 (lit "Jane D. ")) with (lit "Jane D.")
      by (vm_compute; reflexivity).
    rewrite (@clean_display_name_ascii (lit "Jane D."))
      by (apply ascii_checked; reflexivity).
    vm_compute. reflexivity. }
  split; [exact E|]. unfold sender_name_v3. rewrite E. vm_compute. reflexivity.
Qed.

(** Jane's entry leaves the key ["jane"] in the map: with the identifier
    it had, or with hers when it was free. *)
Lemma jane_key (m0 : dict) (later : list str) :
  let m := fold_left add_participant later (add_participant m0 jane_entry) in
  match dict_getitem m0 (lit "jane") with
  | Some v => dict_getitem m (lit "jane") = Some v
  | None => dict_getitem m (lit "jane") = Some jane_identifier
  end.
Proof.
  rewrite add_jane. intros m.
  destruct (dict_getitem m0 (lit "jane")) as [v|] eqn:E.
  - apply roster_keeps. do 3 apply register_keeps. exact E.
  - apply roster_keeps.
    apply register_new_getitem; [reflexivity|].
    rewrite !register_contains_other by discriminate.
    apply dict_getitem_absent, E.
Qed.

Lemma roster_split (earlier later : list str) (li : str) :
  build_participant_map (Some (earlier ++ li :: later))
  = fold_left add_participant later
      (add_participant (build_participant_map (Some earlier)) li).
Proof. unfold build_participant_map. rewrite fold_left_app. reflexivity. Qed.

End AsciiTables.

(** C7, as amended.  With the entry ["Jane Doe (jane.doe@example.com)"]
    in the roster, a sender cell ["Jane D. :"] has the heavily normalised
    name ["jane d"] and the first token ["jane"], and is always resolved
    by the exact lookup of the one or of the other, the substring
    fallback never being reached.  The identifier found is
    [jane.doe@example.com] exactly when the key ["jane d"], if an entry
    of the roster registers it, stands for that identifier, and
    otherwise the key ["jane"], if an entry before Jane's registers it,
    stands for that identifier.  The tables are any that give the ASCII
    characters what CPython gives them. *)
Theorem jane_resolves_by_exact_lookup {U : Unicode} (earlier later : list str) :
  ascii_tables ->
  let m := build_participant_map (Some (earlier ++ jane_entry :: later)) in
  let sender := sender_of jane_cell in
  (sender_name_v2 sender = lit "jane d" /\ sender_name_v3 sender = lit "jane")
  /\ dict_contains m (sender_name_v3 sender) = true
  /\ identify m sender
     = (if dict_contains m (sender_name_v2 sender)
        then dict_getitem m (sender_name_v2 sender)
        else dict_getitem m (sender_name_v3 sender))
  /\ (identify m sender = Some jane_identifier
      <-> owned_by m (lit "jane d") jane_identifier
          /\ (dict_contains m (lit "jane d") = false ->
              owned_by (build_participant_map (Some earlier)) (lit "jane")
                jane_identifier)).
Proof.
  intros tables m sender. subst sender.
  destruct (jane_names tables) as [E2 E3].
  set (m0 := build_participant_map (Some earlier)).
  pose proof (jane_key tables m0 later) as Hk. cbv zeta in Hk.
  unfold m0 in Hk. rewrite <- roster_split in Hk. fold m m0 in Hk.
  assert (Hc : dict_contains m (lit "jane") = true).
  { apply dict_contains_getitem.
    destruct (dict_getitem m0 (lit "jane")); eauto. }
  assert (Hi : identify m (sender_of jane_cell)
               = if dict_contains m (lit "jane d")
                 then dict_getitem m (lit "jane d")
                 else dict_getitem m (lit "jane")).
  { unfold identify. rewrite E2, E3, Hc. reflexivity. }
  split; [split; assumption|]. rewrite E2, E3.
  split; [exact Hc|]. split; [exact Hi|].
  rewrite Hi. unfold owned_by.
  destruct (dict_contains m (lit "jane d")) eqn:Ed.
  - apply dict_contains_getitem in Ed as [v Ev]. rewrite Ev. split.
    + intros [= ->]. split; [|discriminate]. intros v' [= <-]. reflexivity.
    + intros [H _]. f_equal. apply H. reflexivity.
  - apply dict_getitem_absent in Ed. rewrite Ed.
    destruct (dict_getitem m0 (lit "jane")) as [v|]; rewrite Hk; split.
    + intros [= ->]. split; [discriminate|]. intros _ v' [= <-]. reflexivity.
    + intros [_ H]. f_equal. apply H; reflexivity.
    + intros _. split; discriminate.
    + reflexivity.
Qed.

Lemma jane_alone_witness :
  identify (build_participant_map (Some ([] ++ jane_entry :: [])))
    (sender_of jane_cell) = Some jane_identifier.
Proof.
  apply (@jane_resolves_by_exact_lookup latin1 [] []).
  - intros c _. repeat split.
  - split.
    + intros v H. vm_compute in H. discriminate H.
    + intros _ v H. discriminate H.
Defined.

Section Words.
Context {U : Unicode}.
Variable P : char -> Prop.

Lemma words_nonempty (t : str) : words P t -> t <> [].
Proof. destruct 1; discriminate. Qed.

Lemma words_Forall (t : str) :
  words P t -> Forall (fun c => c = 32%N \/ P c) t.
Proof.
  induction 1 as [c Hc|c t Hc _ IH|c t Hc _ IH].
  - constructor; [right; exact Hc | constructor].
  - constructor; [right; exact Hc | exact IH].
  - constructor; [right; exact Hc|]. constructor; [left; reflexivity | exact IH].
Qed.

Lemma words_head (t r : str) (c : char) : words P t -> t = c :: r -> P c.
Proof. destruct 1; intros [= <- _]; assumption. Qed.

Lemma words_tail (t : str) :
  words P t -> forall r c, t = r ++ [c] -> P c.
Proof.
  induction 1 as [a Ha|a t Ha Ht IH|a t Ha Ht IH]; intros r c E.
  - destruct r as [|x [|y r]]; try discriminate E.
    injection E as <-. exact Ha.
  - destruct r as [|x r]; simpl in E.
    + injection E as _ Et. subst t. destruct (words_nonempty Ht eq_refl).
    + injection E as _ E. eapply IH, E.
  - destruct r as [|x [|y r]]; simpl in E.
    + discriminate E.
    + injection E as _ _ Et. subst t. destruct (words_nonempty Ht eq_refl).
    + injection E as _ _ E. eapply IH, E.
Qed.

Lemma words_ends (t : str) :
  (forall c, P c -> isspace c = false) -> words P t -> ends_unspaced t.
Proof.
  intros HP H. split.
  - intros c r E. eapply HP, words_head; eassumption.
  - intros r c E. eapply HP, words_tail; eassumption.
Qed.

Lemma words_of_list (w : str) : w <> [] -> Forall P w -> words P w.
Proof.
  induction w as [|c w IH]; [congruence|]. intros _ H.
  inversion H as [|? ? Hc Hw]; subst.
  destruct w as [|d w]; [apply words_last; assumption|].
  apply words_char; [assumption|]. apply IH; [discriminate | assumption].
Qed.

Lemma words_app (w t : str) : Forall P w -> words P t -> words P (w ++ t).
Proof.
  induction 1 as [|c w Hc _ IH]; intros Ht; simpl; [assumption|].
  apply words_char; auto.
Qed.

Lemma words_app_space (w t : str) :
  w <> [] -> Forall P w -> words P t -> words P (w ++ 32%N :: t).
Proof.
  induction w as [|c w IH]; [congruence|]. intros _ H Ht.
  inversion H as [|? ? Hc Hw]; subst.
  destruct w as [|d w]; simpl.
  - apply words_space; assumption.
  - apply words_char; [assumption|]. apply IH; [discriminate | assumption | assumption].
Qed.

(** A string that is single-spaced, with no white space at its ends, is
    made of words. *)
Lemma words_intro (n : nat) :
  (forall c, P c -> isspace c = false) -> isspace 32%N = true ->
  forall t,
    length t <= n -> t <> [] ->
    Forall (fun c => c = 32%N \/ P c) t ->
    single_spaced t -> ends_unspaced t -> words P t.
Proof.
  intros HP H32. induction n as [|n IH]; intros t Hn Hne Hall Hss [Hh Hl].
  { destruct t; [congruence | simpl in Hn; lia]. }
  destruct t as [|c t]; [congruence|].
  assert (Hc : P c).
  { inversion Hall as [|? ? [->|Hc] _]; subst; [|exact Hc].
    specialize (Hh _ _ eq_refl). congruence. }
  destruct t as [|d t]; [apply words_last; exact Hc|].
  assert (Hall' : Forall (fun c => c = 32%N \/ P c) (d :: t))
    by (inversion Hall; assumption).
  destruct Hss as [Hcd Hss].
  assert (Hl' : forall r x, d :: t = r ++ [x] -> isspace x = false).
  { intros r x E. apply (Hl (c :: r) x). simpl. rewrite E. reflexivity. }
  destruct (N.eq_dec d 32%N) as [->|Hd].
  - destruct t as [|e t].
    { specialize (Hl' [] 32%N eq_refl). congruence. }
    destruct Hss as [Hde Hss]. rewrite H32 in Hde. simpl in Hde.
    apply words_space; [exact Hc|].
    apply IH.
    + simpl in Hn |- *. lia.
    + discriminate.
    + inversion Hall'; assumption.
    + exact Hss.
    + split.
      * intros x r [= <- _]. exact Hde.
      * intros r x E. apply (Hl' (32%N :: r) x). simpl. rewrite E. reflexivity.
  - assert (Pd : P d).
    { inversion Hall' as [|? ? [->|Pd] _]; subst; [congruence | exact Pd]. }
    apply words_char; [exact Hc|].
    apply IH.
    + simpl in Hn |- *. lia.
    + discriminate.
    + exact Hall'.
    + exact Hss.
    + split.
      * intros x r [= <- _]. apply HP, Pd.
      * exact Hl'.
Qed.

Lemma words_mono (Q : char -> Prop) (t : str) :
  (forall c, P c -> Q c) -> words P t -> words Q t.
Proof.
  intros H. induction 1; [apply words_last | apply words_char | apply words_space]; auto.
Qed.

End Words.

(** ** Normal forms of [clean_display_name] *)

Section NormalForms.
Context {U : Unicode}.

Lemma only_codes (c : char) :
  only "-" c = chr_eqb c 45%N /\ only "[" c = chr_eqb c 91%N
  /\ only "(" c = chr_eqb c 40%N /\ only ":" c = chr_eqb c 58%N.
Proof. unfold only, lit. simpl. rewrite !andb_true_r. auto. Qed.

Lemma exec_alt (A : Type) (r1 r2 : regex) s g
    (k : str -> option str -> option A) :
  exec (r1 <|> r2) s g k =
  match exec r1 s g k with Some x => Some x | None => exec r2 s g k end.
Proof. reflexivity. Qed.

Lemma rep_greedy_fail (A : Type) (Q : char -> Prop) (p : char -> bool)
    (k : str -> option A) (s : str) :
  (forall s', Forall Q s' -> k s' = None) ->
  Forall Q s -> forall lo hi, rep_greedy p s lo hi k = None.
Proof.
  intros Hk. induction 1 as [|c s Hc Hs IH]; intros lo hi; simpl.
  - destruct lo; [apply Hk; constructor | reflexivity].
  - assert (Hstop : match lo with O => k (c :: s) | S _ => None end = None).
    { destruct lo; [apply Hk; constructor; assumption | reflexivity]. }
    destruct (p c && may_repeat hi); [|exact Hstop].
    rewrite IH. exact Hstop.
Qed.

(** An alternative of [suffix_re] needs its own character after the
    white space. *)
Lemma branch_no_match (A : Type) (t : char -> bool) (rest : regex)
    (k : str -> option str -> option A) (s : str) :
  Forall (fun c => t c = false) s ->
  exec (Star re_s +> Chr t +> rest) s None k = None.
Proof.
  intros H. rewrite exec_cat.
  change (rep_greedy re_s s 0 None
            (fun s' => exec (Chr t +> rest) s' None k) = None).
  apply rep_greedy_fail with (Q := fun c => t c = false); [|exact H].
  intros s' Hs'. rewrite exec_cat. simpl.
  destruct Hs' as [|c s' Hc _]; [reflexivity|]. rewrite Hc. reflexivity.
Qed.

Lemma suffix_no_match (b : bool) (s : str) :
  Forall (fun c => trigger c = false) s -> match_at b suffix_re s = None.
Proof.
  intros H. unfold match_at, suffix_re.
  assert (H4 : Forall (fun c =>
                 ((only "-" c || chr_eqb c EM_DASH = false
                   /\ only "[" c = false) /\ only "(" c = false)
                 /\ only ":" c = false) s).
  { eapply Forall_impl; [|exact H]. intros c Hc. unfold trigger in Hc.
    apply orb_false_iff in Hc as [Hc H5].
    apply orb_false_iff in Hc as [Hc H4].
    apply orb_false_iff in Hc as [Hc H3]. auto. }
  rewrite exec_alt, branch_no_match
    by (eapply Forall_impl; [|exact H4]; simpl; tauto).
  rewrite exec_alt, branch_no_match
    by (eapply Forall_impl; [|exact H4]; simpl; tauto).
  rewrite exec_alt, branch_no_match
    by (eapply Forall_impl; [|exact H4]; simpl; tauto).
  apply branch_no_match. eapply Forall_impl; [|exact H4]; simpl; tauto.
Qed.

Lemma lower_go_fixed (t : str) :
  Forall (fun d => d <> SIGMA /\ tolower d = [d]) t ->
  forall before, lower_go before t = t.
Proof.
  induction 1 as [|d t [Hs Hd] _ IH]; intros before; simpl; [reflexivity|].
  assert (E : chr_eqb d SIGMA = false) by (apply N.eqb_neq; exact Hs).
  rewrite E, Hd, IH. reflexivity.
Qed.

(** What a stable word character becomes. *)
Lemma stable_image (c : char) (before after : str) :
  re_w c = true -> isspace c = false -> lower_stable c ->
  let image := if chr_eqb c SIGMA
               then [if final_sigma before after then FINAL_SIGMA
                     else SMALL_SIGMA]
               else tolower c in
  image <> [] /\ Forall settled image.
Proof.
  intros Hw Hs Hst. destruct (Hst Hw Hs) as [Hne Hall].
  unfold lower_images in *. simpl. destruct (chr_eqb c SIGMA); [|auto].
  split; [discriminate|].
  inversion Hall as [|? ? Hf Hall']; subst.
  inversion Hall' as [|? ? Hsm _]; subst.
  destruct (final_sigma before after); constructor; auto.
Qed.

Lemma lower_go_words (u : str) :
  tolower 32%N = [32%N] ->
  words stable_word u -> forall before, words settled (lower_go before u).
Proof.
  intros H32.
  induction 1 as [c [Hw [Hs Hst]]|c t [Hw [Hs Hst]] _ IH|c t [Hw [Hs Hst]] _ IH];
    intros before; cbn [lower_go].
  - destruct (stable_image before [] Hw Hs Hst) as [Hne Hall].
    rewrite app_nil_r. apply words_of_list; assumption.
  - destruct (stable_image before t Hw Hs Hst) as [Hne Hall].
    apply words_app; [exact Hall | apply IH].
  - destruct (stable_image before (32%N :: t) Hw Hs Hst) as [Hne Hall].
    change (chr_eqb 32%N SIGMA) with false. cbv iota. rewrite H32.
    apply words_app_space; [exact Hne | exact Hall | apply IH].
Qed.

Lemma settled_unspaced (c : char) : settled c -> isspace c = false.
Proof. intros (_ & H & _). exact H. Qed.

Lemma squeeze_words (t : str) :
  isspace 32%N = true -> words settled t -> squeeze false t = t.
Proof.
  intros H32. induction 1 as [c Hc|c t Hc Ht IH|c t Hc Ht IH]; simpl.
  - rewrite (settled_unspaced Hc). reflexivity.
  - rewrite (settled_unspaced Hc), IH. reflexivity.
  - rewrite (settled_unspaced Hc), H32.
    rewrite squeeze_unspaced, IH; [reflexivity|].
    intros d r E. eapply settled_unspaced, words_head; eassumption.
Qed.

(** A string of settled words is a fixed point of [clean_display_name]. *)
Lemma clean_fixes_words (t : str) :
  punctuation_tables -> words settled t -> clean_display_name t = t.
Proof.
  intros (H32 & Hl32 & Hp) Ht.
  pose proof (words_Forall Ht) as Hall.
  pose proof (words_ends settled_unspaced Ht) as Hends.
  assert (Hw : Forall (fun c => re_w c || re_s c = true) t).
  { eapply Forall_impl; [|exact Hall]. intros c [->|(Hc & _)].
    - unfold re_s. rewrite H32. apply orb_true_r.
    - rewrite Hc. reflexivity. }
  assert (Hnot : forall a, In a [38; 40; 45; 58; 60; 62; 91; 8212]%N ->
                           Forall (fun c => c <> a) t).
  { intros a Ha. rewrite Forall_forall in Hp. specialize (Hp a Ha).
    eapply Forall_impl; [|exact Hall]. intros c [->|(Hc & _)] E; subst.
    - simpl in Ha. repeat (destruct Ha as [Ha|Ha]; [discriminate Ha|]). exact Ha.
    - congruence. }
  assert (Htr : Forall (fun c => trigger c = false) t).
  { apply Forall_forall. intros c Hc.
    assert (N : forall a, In a [40; 45; 58; 91; 8212]%N -> chr_eqb c a = false).
    { intros a Ha. apply N.eqb_neq.
      assert (Ha' : In a [38; 40; 45; 58; 60; 62; 91; 8212]%N)
        by (simpl in *; tauto).
      specialize (Hnot a Ha'). rewrite Forall_forall in Hnot. apply Hnot, Hc. }
    unfold trigger. destruct (only_codes c) as (-> & -> & -> & ->).
    unfold EM_DASH.
    rewrite (N 45%N), (N 8212%N), (N 91%N), (N 40%N), (N 58%N)
      by (simpl; tauto).
    reflexivity. }
  unfold clean_display_name.
  change (lit "&lt;") with (38%N :: lit "lt;").
  change (lit "&gt;") with (38%N :: lit "gt;").
  assert (H38 : Forall (fun c => c <> 38%N) t) by (apply Hnot; simpl; tauto).
  rewrite replace_absent with (s := t) by exact H38.
  rewrite replace_absent with (s := t) by exact H38.
  rewrite (strip_id Hends).
  rewrite sub_no_match with (r := suffix_re) (Q := fun c => trigger c = false);
    [|apply suffix_no_match | exact Htr].
  rewrite (strip_id Hends).
  rewrite sub_special.
  rewrite forallb_filter_id
    by (apply forallb_forall; rewrite Forall_forall in Hw; exact Hw).
  rewrite (strip_id Hends).
  rewrite sub_spaces, (squeeze_words H32 Ht), (strip_id Hends).
  apply lower_go_fixed.
  eapply Forall_impl; [|exact Hall].
  intros c [->|(_ & _ & Hs & Hc)]; [|auto].
  split; [discriminate | exact Hl32].
Qed.

End NormalForms.

Section Idempotence.
Context {U : Unicode}.

(** Before its last step [clean_display_name] holds words of the word
    characters of its argument, separated by single spaces. *)
Lemma clean_shape (s : str) :
  punctuation_tables -> Forall lower_stable s ->
  exists u, clean_display_name s = lower u /\ (u = [] \/ words stable_word u).
Proof.
  intros (H32 & Hl32 & Hp) Hs. unfold clean_display_name.
  set (x := strip (sub suffix_re []
              (strip (replace (lit "&gt;") (lit ">")
                        (replace (lit "&lt;") (lit "<") s))))).
  set (y := strip (sub special_re [] x)).
  set (u := strip (sub spaces_re (lit " ") y)).
  exists u. split; [reflexivity|].
  destruct u as [|c0 u0] eqn:Eu; [left; reflexivity | right].
  rewrite <- Eu.
  assert (Hx : forall c, In c x -> In c s \/ c = 60%N \/ c = 62%N).
  { intros c Hc. subst x. apply strip_In, sub_In, strip_In in Hc.
    change (lit "&gt;") with (38%N :: lit "gt;") in Hc.
    change (lit "&lt;") with (38%N :: lit "lt;") in Hc.
    apply replace_In in Hc as [Hc|[<-|[]]]; [|auto].
    apply replace_In in Hc as [Hc|[<-|[]]]; auto. }
  apply words_intro with (n := length u).
  - intros c (_ & Hc & _). exact Hc.
  - exact H32.
  - reflexivity.
  - rewrite Eu. discriminate.
  - apply Forall_forall. intros c Hc. subst u.
    apply strip_In in Hc. rewrite sub_spaces in Hc.
    apply squeeze_In in Hc as [ -> |[Hc Hsp]]; [left; reflexivity | right].
    subst y. apply strip_In in Hc. rewrite sub_special in Hc.
    apply filter_In in Hc as [Hc Hw]. unfold re_s in Hw. rewrite Hsp in Hw.
    rewrite orb_false_r in Hw.
    split; [exact Hw|]. split; [exact Hsp|].
    rewrite Forall_forall in Hs, Hp.
    destruct (Hx c Hc) as [Hin|[ -> | -> ]]; [apply Hs, Hin| |].
    + rewrite Hp in Hw by (simpl; tauto). discriminate.
    + rewrite Hp in Hw by (simpl; tauto). discriminate.
  - subst u. apply strip_single_spaced. rewrite sub_spaces.
    apply squeeze_single_spaced.
  - subst u. apply strip_ends.
Qed.

Lemma clean_empty : clean_display_name [] = [].
Proof. reflexivity. Qed.


End Idempotence.


(** ** The theorems at concrete inputs *)

Lemma first_registration_witness :
  dict_getitem
    (fold_left add_participant [lit "Jane Smith (jane.smith@example.org)"]
       (add_participant [] jane_entry))
    (lit "jane")
  = Some jane_identifier.
Proof.
  apply (first_registration_wins (add_participant [] jane_entry) (lit "jane")).
  reflexivity.
Defined.

Lemma entry_without_email_witness :
  search identifier_re (lit "Bob Smith - away") = None
  /\ add_participant [] (lit "Bob Smith - away")
     = [(lit "bob smith", lit "bob smith")].
Proof.
  split; [reflexivity|].
  rewrite (entry_without_email [] (lit "Bob Smith - away")); reflexivity.
Defined.

Lemma attribution_order_witness :
  process_row (build_participant_map (Some [jane_entry])) jane_identifier
    UNKNOWN_DATE sample_row = Some sample_turn
  /\ identified_sender_identifier sample_turn
     = first_success
         (attribution_attempts (build_participant_map (Some [jane_entry]))
            (sender_display_name_from_msg sample_turn)).
Proof.
  split; [reflexivity|].
  apply (attribution_order (build_participant_map (Some [jane_entry]))
           jane_identifier UNKNOWN_DATE sample_row).
  reflexivity.
Defined.

Lemma label_gpt_witness :
  from (message sample_turn) = lit "gpt" <->
  exists identifier,
    identified_sender_identifier sample_turn = Some identifier
    /\ lower jane_identifier = lower identifier.
Proof.
  apply (label_gpt_iff_self (Some [jane_entry]) jane_identifier UNKNOWN_DATE
           sample_row).
  reflexivity.
Defined.

Lemma empty_name_witness :
  exists k v rest,
    build_participant_map (Some [jane_entry]) = (k, v) :: rest
    /\ substring_fallback (build_participant_map (Some [jane_entry]))
         (sender_name_v2 (lit "...")) = Some v
    /\ identify (build_participant_map (Some [jane_entry])) (lit "...") = Some v.
Proof.
  apply (empty_name_takes_first_entry (Some [jane_entry]) (lit "..."));
    [discriminate | reflexivity | reflexivity].
Defined.


Lemma link_row_witness :
  lower (strip (lit "  HTTPS://Example.com ")) = lit "https://example.com"
  /\ (forall m user date, process_row m user date link_row = None)
  /\ (forall soup path user f msg,
         In f (html_to_json soup path user) -> In msg (snd f) ->
         value msg <> lit "  HTTPS://Example.com ").
Proof.
  split; [reflexivity|].
  apply (noise_is_discarded link_row eq_refl).
  right; right; right. reflexivity.
Defined.

Lemma unknown_date_witness :
  session_date_of (session_h2 sample_session) = UNKNOWN_DATE
  /\ Forall (fun t => startswith (full_timestamp t) UNKNOWN_DATE = true)
       (session_turns jane_identifier sample_session)
  /\ forall h2,
       map attribution_of (session_turns jane_identifier sample_session)
       = map attribution_of
           (session_turns jane_identifier (with_h2 h2 sample_session)).
Proof.
  apply (unparseable_date_is_unknown jane_identifier sample_session eq_refl).
  right. eexists. split; reflexivity.
Defined.

(** ** Idempotence with CPython's tables *)

Lemma settled_check_sound {U : Unicode} (d : char) :
  settled_check d = true -> settled d.
Proof.
  unfold settled_check, settled. intros H.
  apply andb_true_iff in H as [H H4]. apply andb_true_iff in H as [H H3].
  apply andb_true_iff in H as [H1 H2].
  apply negb_true_iff in H2, H3. apply N.eqb_neq in H3.
  apply str_eqb_eq in H4. auto.
Qed.

Lemma stable_check_sound {U : Unicode} (c : char) :
  stable_check c = true -> lower_stable c.
Proof.
  unfold stable_check, lower_stable. intros H Hw Hs. rewrite Hw, Hs in H.
  simpl in H. apply andb_true_iff in H as [Ht Hf]. split.
  - apply truthy_iff, Ht.
  - apply Forall_forall. intros d Hd. apply settled_check_sound.
    rewrite forallb_forall in Hf. apply Hf, Hd.
Qed.

Lemma stable_checked {U : Unicode} (s : str) :
  forallb stable_check s = true -> Forall lower_stable s.
Proof.
  intros H. apply Forall_forall. intros c Hc. apply stable_check_sound.
  rewrite forallb_forall in H. apply H, Hc.
Qed.

Lemma latin1_punctuation : punctuation_tables.
Proof. repeat split; repeat constructor. Qed.



(** On the code points of [latin1] every character but U+0130 is stable,
    so that one is the only obstacle. *)

Lemma between_above (lo hi c : N) : (hi < c)%N -> between lo hi c = false.
Proof.
  intros H. unfold between. apply andb_false_iff. right. apply N.leb_gt, H.
Qed.

Lemma chr_eqb_differ (a c : char) : c <> a -> chr_eqb c a = false.
Proof. intros H. apply N.eqb_neq, H. Qed.

Lemma latin1_beyond (c : char) :
  (256 <= c)%N -> c <> 304%N -> re_w c = false.
Proof.
  intros Hc Hn. unfold re_w. simpl.
  unfold latin1_isalnum, latin1_isalpha, latin1_isdecimal.
  rewrite !between_above by lia. rewrite !chr_eqb_differ by lia. reflexivity.
Qed.

Lemma latin1_below (c : char) :
  (c < 256)%N -> In c (map N.of_nat (seq 0 256)).
Proof.
  intros H. apply in_map_iff. exists (N.to_nat c). split.
  - apply N2Nat.id.
  - apply in_seq. lia.
Qed.

Lemma latin1_stable (c : char) : c <> 304%N -> lower_stable c.
Proof.
  intros Hn. apply stable_check_sound.
  destruct (N.lt_ge_cases c 256) as [H|H].
  - assert (Hall : forallb stable_check (map N.of_nat (seq 0 256)) = true)
      by (vm_compute; reflexivity).
    rewrite forallb_forall in Hall. apply Hall, latin1_below, H.
  - unfold stable_check. rewrite (latin1_beyond H Hn). reflexivity.
Qed.

Corollary latin1_idempotent_without_dotted_capital_i (s : str) :
  ~ In 304%N s ->
  clean_display_name (clean_display_name s) = clean_display_name s.
Proof.
  intros Hs.
  assert (Hst : Forall lower_stable s).
  { apply Forall_forall. intros c Hc. apply latin1_stable.
    intros E. apply Hs. rewrite <- E. exact Hc. }
  destruct (clean_shape latin1_punctuation Hst) as (u & -> & [ -> |Hu]).
  - apply clean_empty.
  - apply clean_fixes_words; [exact latin1_punctuation|].
    apply lower_go_words; [reflexivity | exact Hu].
Qed.

(** ** The program on a small document *)

Example clean_decorated_name :
  clean_display_name (lit "  Bob &lt;3 - away [work] :") = lit "bob 3".
Proof. reflexivity. Qed.

Example clean_bracketed_name :
  clean_display_name (lit "Jane [busy] (home) D. :") = lit "jane d".
Proof. reflexivity. Qed.

Example french_date :
  session_date_of (Some (lit "Session du 4 mars 2003")) = lit "03.03.04".
Proof. reflexivity. Qed.

Example timestamp_without_seconds :
  timestamp_of (lit "03.03.04") (lit "(12:30)") = lit "03.03.04, 12:30:00".
Proof. reflexivity. Qed.

Example sample_map :
  build_participant_map (Some [jane_entry; lit "Bob"])
  = [ (lit "jane doe", jane_identifier);
      (lit "jane", jane_identifier);
      (lit "bob", lit "bob") ].
Proof. reflexivity. Qed.

Example sample_output :
  html_to_json (Some sample_document) (lit "out/chat") jane_identifier
  = [ (lit "out/chat.json",
       [ {| from := lit "gpt"; value := lit "hello" |};
         {| from := lit "human"; value := lit "hi Jane" |};
         {| from := lit "gpt"; value := lit "hello" |} ]) ].
Proof. reflexivity. Qed.

Example unreadable_file :
  html_to_json None (lit "out/chat") jane_identifier = [].
Proof. reflexivity. Qed.

(** * Further properties *)

(** ** The participant map as a dictionary *)

Lemma dict_contains_In (m : dict) (k : str) :
  dict_contains m k = true <-> In k (map fst m).
Proof.
  induction m as [|[k' v'] m IH]; simpl; [split; [discriminate | tauto]|].
  rewrite orb_true_iff, str_eqb_eq, IH. tauto.
Qed.

Lemma dict_getitem_NoDup (m : dict) (k v : str) :
  NoDup (map fst m) -> In (k, v) m -> dict_getitem m k = Some v.
Proof.
  induction m as [|[k' v'] m IH]; simpl; [tauto|].
  intros Hnd [E|Hin].
  - injection E as -> ->. rewrite str_eqb_refl. reflexivity.
  - inversion Hnd as [|? ? Hk Hnd']; subst.
    destruct (str_eqb k' k) eqn:E; [|auto].
    apply str_eqb_eq in E. subst k'. destruct Hk.
    apply in_map_iff. exists (k, v). auto.
Qed.

Section MapExtras.
Context {U : Unicode} {D : Datetime}.

Lemma register_appends (m : dict) (k v : str) :
  register m k v = m ++ registered m k v.
Proof.
  rewrite register_spec. unfold registered.
  destruct (truthy k && negb (dict_contains m k));
    [reflexivity | rewrite app_nil_r; reflexivity].
Qed.

Lemma registered_fresh (m : dict) (k v k0 v0 : str) :
  In (k0, v0) (registered m k v) ->
  k0 = k /\ v0 = v /\ k <> [] /\ dict_contains m k = false.
Proof.
  unfold registered. destruct (truthy k) eqn:Et; simpl; [|tauto].
  destruct (dict_contains m k) eqn:Ec; simpl; [tauto|].
  intros [[= <- <-]|[]]. apply truthy_iff in Et. auto.
Qed.

(** A registration keeps the keys distinct. *)
Lemma register_NoDup (m : dict) (k v : str) :
  NoDup (map fst m) -> NoDup (map fst (register m k v)).
Proof.
  intros H. rewrite register_spec.
  destruct (truthy k && negb (dict_contains m k)) eqn:E; [|exact H].
  apply andb_true_iff in E as [_ E]. apply negb_true_iff in E.
  rewrite map_app. simpl. apply NoDup_app.
  - exact H.
  - repeat constructor. simpl. tauto.
  - intros a Ha [<-|[]]. apply dict_contains_In in Ha. congruence.
Qed.

Lemma dict_contains_app_false (m e : dict) (k : str) :
  dict_contains (m ++ e) k = false -> dict_contains m k = false.
Proof.
  induction m as [|[k' v'] m IH]; simpl; [reflexivity|].
  intros H. apply orb_false_iff in H as [H1 H2].
  rewrite H1. simpl. auto.
Qed.

(** An entry with an identifier makes three registrations under it. *)
Lemma add_participant_email (m : dict) (li : str) (mo : match_object) :
  search identifier_re li = Some mo ->
  add_participant m li =
  fold_left (fun m' k => register m' k (lower (group1 mo)))
    [ lower (display_name_part li mo);
      clean_display_name (display_name_part li mo);
      first_word (clean_display_name (display_name_part li mo)) ]
    m.
Proof. intros H. unfold add_participant. rewrite H. reflexivity. Qed.

Lemma add_participant_plain (m : dict) (li : str) :
  search identifier_re li = None ->
  add_participant m li =
  fold_left (fun m' k => register m' k (clean_display_name li))
    [clean_display_name li] m.
Proof. intros H. unfold add_participant. rewrite H. reflexivity. Qed.

(** Registrations under one identifier only append fresh keys. *)
Lemma registrations_append (v : str) (ks : list str) :
  forall m,
  exists added,
    fold_left (fun m' k => register m' k v) ks m = m ++ added
    /\ length added <= length ks
    /\ forall k0 v0, In (k0, v0) added ->
         In k0 ks /\ v0 = v /\ k0 <> [] /\ dict_contains m k0 = false.
Proof.
  induction ks as [|k ks IH]; intros m; simpl.
  - exists []. rewrite app_nil_r. split; [reflexivity|].
    split; [simpl; lia|]. intros k0 v0 [].
  - destruct (IH (register m k v)) as (added & E & Hl & Hin).
    exists (registered m k v ++ added). split; [|split].
    + rewrite E, register_appends, <- app_assoc. reflexivity.
    + rewrite length_app.
      assert (length (registered m k v) <= 1)
        by (unfold registered; destruct (_ && _); simpl; lia).
      lia.
    + intros k0 v0 H. apply in_app_or in H as [H|H].
      * apply registered_fresh in H as (-> & -> & Hk & Hc). auto.
      * apply Hin in H as (H1 & H2 & H3 & H4).
        rewrite register_appends in H4.
        apply dict_contains_app_false in H4. auto.
Qed.

(** A roster entry only appends, at most three pairs, all under the
    identifier of the entry. *)
Lemma add_participant_appends (m : dict) (li : str) :
  exists added,
    add_participant m li = m ++ added
    /\ length added <= 3
    /\ forall k v, In (k, v) added ->
         v = entry_identifier li /\ k <> [] /\ dict_contains m k = false.
Proof.
  unfold entry_identifier.
  destruct (search identifier_re li) as [mo|] eqn:E.
  - rewrite add_participant_email with (mo := mo) by exact E.
    destruct (registrations_append (lower (group1 mo))
                [ lower (display_name_part li mo);
                  clean_display_name (display_name_part li mo);
                  first_word (clean_display_name (display_name_part li mo)) ] m)
      as (added & Ea & Hl & Hin).
    exists added. split; [exact Ea|]. split; [exact Hl|].
    intros k v H. apply Hin in H. tauto.
  - rewrite add_participant_plain by exact E.
    destruct (registrations_append (clean_display_name li)
                [clean_display_name li] m) as (added & Ea & Hl & Hin).
    exists added. split; [exact Ea|]. split; [simpl in Hl; lia|].
    intros k v H. apply Hin in H. tauto.
Qed.

Lemma roster_appends (lis : list str) :
  forall m,
  exists added,
    fold_left add_participant lis m = m ++ added
    /\ length added <= 3 * length lis
    /\ forall k v, In (k, v) added ->
         (exists li, In li lis /\ v = entry_identifier li)
         /\ k <> [] /\ dict_contains m k = false.
Proof.
  induction lis as [|li lis IH]; intros m; simpl fold_left.
  - exists []. rewrite app_nil_r. split; [reflexivity|].
    split; [simpl; lia|]. intros k0 v0 [].
  - destruct (add_participant_appends m li) as (a1 & E1 & L1 & H1).
    destruct (IH (add_participant m li)) as (a2 & E2 & L2 & H2).
    exists (a1 ++ a2). split; [|split].
    + rewrite E2, E1, app_assoc. reflexivity.
    + rewrite length_app. simpl length. lia.
    + intros k v H. apply in_app_or in H as [H|H].
      * apply H1 in H as (-> & Hk & Hc). split; [|auto].
        exists li. simpl. auto.
      * apply H2 in H as ((li' & Hli & ->) & Hk & Hc). split; [|split].
        -- exists li'. simpl. auto.
        -- exact Hk.
        -- rewrite E1 in Hc. apply dict_contains_app_false in Hc. exact Hc.
Qed.

Lemma add_participant_NoDup (m : dict) (li : str) :
  NoDup (map fst m) -> NoDup (map fst (add_participant m li)).
Proof.
  intros H. unfold add_participant.
  destruct (search identifier_re li); auto using register_NoDup.
Qed.

Lemma roster_NoDup (lis : list str) :
  forall m, NoDup (map fst m) ->
            NoDup (map fst (fold_left add_participant lis m)).
Proof.
  induction lis as [|li lis IH]; intros m H; simpl; [exact H|].
  apply IH, add_participant_NoDup, H.
Qed.

Lemma build_NoDup (ul : option (list str)) :
  NoDup (map fst (build_participant_map ul)).
Proof.
  destruct ul as [lis|]; simpl; [|constructor].
  apply roster_NoDup. constructor.
Qed.

(** X4. The map of a roster extends the map of any of its initial
    parts: later entries only append, at most three pairs each, under
    their own identifiers and under keys that were free. *)
Theorem roster_only_appends (earlier later : list str) :
  exists added,
    build_participant_map (Some (earlier ++ later))
    = build_participant_map (Some earlier) ++ added
    /\ length added <= 3 * length later
    /\ forall k v, In (k, v) added ->
         (exists li, In li later /\ v = entry_identifier li)
         /\ k <> []
         /\ dict_contains (build_participant_map (Some earlier)) k = false.
Proof.
  simpl. rewrite fold_left_app. apply roster_appends.
Qed.

(** X5. The participant map of a session behaves as a dictionary: its
    keys are pairwise distinct, so a pair is in it exactly when looking
    its key up gives its value; no key and no identifier is empty; and it
    holds at most three pairs per roster entry. *)
Theorem participant_map_well_formed (ul : option (list str)) :
  let m := build_participant_map ul in
  NoDup (map fst m)
  /\ (forall k v, In (k, v) m <-> dict_getitem m k = Some v)
  /\ Forall (fun kv => fst kv <> [] /\ snd kv <> []) m
  /\ length m <= 3 * length (match ul with Some lis => lis | None => [] end).
Proof.
  intros m. pose proof (build_NoDup ul) as Hnd. fold m in Hnd.
  split; [exact Hnd|]. split; [|split].
  - intros k v. split; [apply dict_getitem_NoDup, Hnd | apply dict_getitem_In].
  - pose proof (build_keys_truthy ul) as Hk.
    pose proof (build_values_truthy ul) as Hv.
    unfold keys_truthy, values_truthy in *. fold m in Hk, Hv.
    rewrite Forall_forall in *. intros kv Hin. split; apply truthy_iff; auto.
  - subst m. destruct ul as [lis|]; simpl; [|lia].
    destruct (roster_appends lis []) as (added & E & Hl & _).
    rewrite E. simpl. exact Hl.
Qed.

(** X7. Attribution never invents an identifier: what it finds is the
    identifier of some entry of the roster, the lower-cased e-mail of the
    entry or, for an entry without one, its normalised text. *)
Theorem attribution_from_roster (ul : option (list str)) (sender v : str) :
  identify (build_participant_map ul) sender = Some v ->
  exists roster li,
    ul = Some roster /\ In li roster /\ v = entry_identifier li.
Proof.
  intros H. apply identify_In in H as [k Hin].
  destruct ul as [lis|]; simpl in Hin; [|destruct Hin].
  destruct (roster_appends lis []) as (added & E & _ & Ha).
  rewrite E in Hin. simpl in Hin.
  apply Ha in Hin as ((li & Hli & ->) & _). eauto.
Qed.

Lemma registrations_keep (v : str) (ks : list str) :
  forall m k0 v0,
    dict_getitem m k0 = Some v0 ->
    dict_getitem (fold_left (fun m' k => register m' k v) ks m) k0 = Some v0.
Proof.
  induction ks as [|k ks IH]; intros m k0 v0 H; simpl; [exact H|].
  apply IH, register_keeps, H.
Qed.

(** A free, non-empty key among those registered is found afterwards. *)
Lemma registrations_lookup (v : str) (ks : list str) :
  forall m k0,
    In k0 ks -> k0 <> [] -> dict_contains m k0 = false ->
    dict_getitem (fold_left (fun m' k => register m' k v) ks m) k0 = Some v.
Proof.
  induction ks as [|k ks IH]; intros m k0 Hin Hne Hc; [destruct Hin|].
  simpl. destruct (str_eqb k k0) eqn:E.
  - apply str_eqb_eq in E. subst k0.
    apply registrations_keep, register_new_getitem; [apply truthy_iff, Hne | exact Hc].
  - apply str_eqb_neq in E. destruct Hin as [Hin|Hin]; [contradiction|].
    apply IH; [exact Hin | exact Hne|].
    rewrite register_contains_other by exact E. exact Hc.
Qed.

Lemma identify_by_heavy_name (m : dict) (sender v : str) :
  dict_getitem m (sender_name_v2 sender) = Some v -> identify m sender = Some v.
Proof.
  intros H. unfold identify.
  assert (Hc : dict_contains m (sender_name_v2 sender) = true)
    by (apply dict_contains_getitem; eauto).
  rewrite Hc. exact H.
Qed.

(** X6. Registration and lookup round: a key that an entry with an
    e-mail registers (its lightly normalised name, its heavily normalised
    name or the first token) and that is non-empty and was free before
    the entry maps to the entry's lower-cased e-mail in the map of the
    whole roster, and every sender whose heavily normalised name is that
    key is attributed to it. *)
Theorem registered_name_is_recognised (earlier later : list str) (li : str)
    (mo : match_object) (k : str) :
  search identifier_re li = Some mo ->
  In k [ lower (display_name_part li mo);
         clean_display_name (display_name_part li mo);
         first_word (clean_display_name (display_name_part li mo)) ] ->
  k <> [] ->
  dict_contains (build_participant_map (Some earlier)) k = false ->
  let m := build_participant_map (Some (earlier ++ li :: later)) in
  dict_getitem m k = Some (lower (group1 mo))
  /\ forall sender,
       sender_name_v2 sender = k -> identify m sender = Some (lower (group1 mo)).
Proof.
  intros Hs Hin Hne Hc m.
  assert (Hg : dict_getitem m k = Some (lower (group1 mo))).
  { subst m. simpl. rewrite fold_left_app. simpl. apply roster_keeps.
    rewrite add_participant_email with (mo := mo) by exact Hs.
    apply registrations_lookup; assumption. }
  split; [exact Hg|].
  intros sender Hv. apply identify_by_heavy_name. rewrite Hv. exact Hg.
Qed.

(** X8. In a session without a participant list, or with an empty one,
    every message kept is labelled ["human"], whoever the self
    identifier is. *)
Theorem no_roster_all_human (user : str) (session : Session) :
  session_ul session = None \/ session_ul session = Some [] ->
  Forall (fun msg => from msg = lit "human")
    (session_conversations user session).
Proof.
  intros H.
  assert (Hm : build_participant_map (session_ul session) = [])
    by (destruct H as [-> | ->]; reflexivity).
  apply Forall_forall. intros msg Hin.
  unfold session_conversations in Hin. apply in_map_iff in Hin as (t & <- & Hin).
  apply session_turns_In in Hin as (row & _ & Hr). rewrite Hm in Hr.
  apply process_row_Some in Hr as (tt & st & ct & _ & _ & _ & _ & ->).
  reflexivity.
Qed.

Lemma filter_map_ext (X Y : Type) (f f' : X -> option Y) (l : list X) :
  (forall x, f x = f' x) -> filter_map f l = filter_map f' l.
Proof.
  intros H. induction l as [|x l IH]; simpl; [reflexivity|].
  rewrite H, IH. reflexivity.
Qed.

Lemma filter_map_map (X Y Z : Type) (g : X -> Y) (f : Y -> option Z)
    (l : list X) :
  filter_map f (map g l) = filter_map (fun x => f (g x)) l.
Proof.
  induction l as [|x l IH]; simpl; [reflexivity|]. rewrite IH. reflexivity.
Qed.

Lemma map_filter_map (X Y Z : Type) (f : X -> option Y) (g : Y -> Z)
    (l : list X) :
  map g (filter_map f l) = filter_map (fun x => option_map g (f x)) l.
Proof.
  induction l as [|x l IH]; simpl; [reflexivity|].
  destruct (f x); simpl; rewrite IH; reflexivity.
Qed.

Lemma flat_map_ext_all (X Y : Type) (f g : X -> list Y) (l : list X) :
  (forall x, f x = g x) -> flat_map f l = flat_map g l.
Proof.
  intros H. induction l as [|x l IH]; simpl; [reflexivity|].
  rewrite H, IH. reflexivity.
Qed.

(** X9. The self identifier counts up to case: two identifiers with the
    same lower case give the same files. *)
Theorem self_identifier_up_to_case (soup : option (list Session))
    (path user user' : str) :
  lower user = lower user' ->
  html_to_json soup path user = html_to_json soup path user'.
Proof.
  intros H. destruct soup as [sessions|]; [|reflexivity]. simpl. f_equal.
  apply flat_map_ext_all. intros session.
  unfold session_conversations, session_turns. f_equal.
  apply filter_map_ext. intros row.
  unfold process_row, from_field. rewrite H. reflexivity.
Qed.

Lemma process_row_without_time (m : dict) (user date date' : str) (row : Row) :
  option_map message (process_row m user date' (without_time row))
  = option_map message (process_row m user date row).
Proof.
  unfold process_row, without_time. simpl.
  destruct (existsb _ _); [reflexivity|].
  destruct (time_tag row); simpl; [|reflexivity].
  destruct (sender_th row); [|reflexivity].
  destruct (content_td row); [|reflexivity].
  destruct (is_noise _); reflexivity.
Qed.

(** X10. The session date and the times of day, though computed, never
    reach the output: a document gives the same files once its headers
    are removed and its time texts emptied. *)
Theorem dates_never_written (sessions : list Session) (path user : str) :
  html_to_json (Some (map without_dates sessions)) path user
  = html_to_json (Some sessions) path user.
Proof.
  simpl. f_equal. rewrite flat_map_concat_map, map_map, <- flat_map_concat_map.
  apply flat_map_ext_all. intros session.
  unfold session_conversations, session_turns. simpl.
  rewrite filter_map_map, !map_filter_map.
  apply filter_map_ext. intros row. apply process_row_without_time.
Qed.

Lemma process_row_content (m : dict) (user date : str) (row : Row) :
  option_map (fun t => value (message t)) (process_row m user date row)
  = kept_content row.
Proof.
  unfold process_row, kept_content.
  destruct (existsb _ _); [reflexivity|].
  destruct (time_tag row); [|reflexivity].
  destruct (sender_th row); [|reflexivity].
  destruct (content_td row); [|reflexivity].
  destruct (is_noise _); reflexivity.
Qed.

(** X11. Whether a row is kept depends on the row alone, not on the
    roster, the sender or the self identifier: the texts of the messages
    of a session are those of its rows that are no status rows, have a
    time, a sender cell and a content cell, and pass the noise filter, in
    order and unchanged.  A row with an empty text is kept. *)
Theorem kept_rows (user : str) (session : Session) :
  map value (session_conversations user session)
  = filter_map kept_content (session_tr session)
  /\ forall row tt st,
       existsb (str_eqb (lit "msgplus")) (row_class row) = false ->
       time_tag row = Some tt -> sender_th row = Some st ->
       content_td row = Some [] ->
       kept_content row = Some [].
Proof.
  split.
  - unfold session_conversations, session_turns.
    rewrite map_map, map_filter_map.
    apply filter_map_ext. intros row. apply process_row_content.
  - intros row tt st Hc Ht Hs Hv. unfold kept_content.
    rewrite Hc, Ht, Hs, Hv. reflexivity.
Qed.

End MapExtras.

(** ** The files written *)

Lemma str_of_uint_inj (d d' : Decimal.uint) :
  str_of_uint d = str_of_uint d' -> d = d'.
Proof.
  revert d'; induction d as [|d IH|d IH|d IH|d IH|d IH|d IH|d IH|d IH|d IH|d IH];
    intros [|d'|d'|d'|d'|d'|d'|d'|d'|d'|d']; simpl; intros E;
    try discriminate E; try reflexivity;
    injection E as E; f_equal; apply IH, E.
Qed.

Lemma str_of_nat_inj (i j : nat) : str_of_nat i = str_of_nat j -> i = j.
Proof.
  unfold str_of_nat. intros E. apply str_of_uint_inj in E.
  rewrite <- (DecimalNat.Unsigned.of_to i), <- (DecimalNat.Unsigned.of_to j), E. reflexivity.
Qed.

Lemma chunk_name_inj (path : str) (i j : nat) :
  path ++ str_of_nat i ++ lit ".json" = path ++ str_of_nat j ++ lit ".json" ->
  i = j.
Proof.
  intros E. apply app_inv_head, app_inv_tail in E. apply str_of_nat_inj, E.
Qed.

Lemma range_NoDup (n : nat) : NoDup (range 0 n 40).
Proof.
  rewrite range_40. generalize ((n + 39) / 40). intros m.
  induction m as [|m IH]; [constructor|].
  rewrite seq_S, map_app. simpl. apply NoDup_app.
  - exact IH.
  - repeat constructor. simpl. tauto.
  - intros a Ha [<-|[]]. apply in_map_iff in Ha as (j & E & Hj).
    apply in_seq in Hj. lia.
Qed.

Section FileExtras.
Context {U : Unicode} {D : Datetime}.

Lemma write_chunk_names (path : str) (convs : list Message)
    (offsets : list nat) (name : str) :
  In name (map fst (flat_map (write_chunk path convs) offsets)) ->
  exists i, In i offsets /\ name = path ++ str_of_nat i ++ lit ".json".
Proof.
  intros H. apply in_map_iff in H as (f & <- & H).
  apply in_flat_map in H as (i & Hi & H). unfold write_chunk in H.
  destruct (length _ <? 3); [destruct H|]. destruct H as [<-|[]]. eauto.
Qed.

Lemma write_chunk_NoDup (path : str) (convs : list Message)
    (offsets : list nat) :
  NoDup offsets ->
  NoDup (map fst (flat_map (write_chunk path convs) offsets)).
Proof.
  induction 1 as [|i offsets Hi Hnd IH]; [constructor|].
  cbn [flat_map]. rewrite map_app. apply NoDup_app.
  - unfold write_chunk. destruct (length _ <? 3); repeat constructor. simpl. tauto.
  - exact IH.
  - intros name H1 H2. apply write_chunk_names in H2 as (j & Hj & ->).
    unfold write_chunk in H1.
    destruct (length _ <? 3); [destruct H1|]. destruct H1 as [E|[]].
    simpl in E. apply chunk_name_inj in E. congruence.
Qed.

(** X12. Every file written holds between 3 and 40 messages. *)
Theorem output_file_sizes (soup : option (list Session)) (path user : str)
    (f : file) :
  In f (html_to_json soup path user) -> 3 <= length (snd f) <= 40.
Proof.
  destruct soup as [sessions|]; simpl; [|tauto].
  unfold save_conversations.
  destruct (40 <? length _) eqn:E40.
  - intros H. apply in_flat_map in H as (i & _ & H). unfold write_chunk in H.
    destruct (length _ <? 3) eqn:E3; [destruct H|]. destruct H as [<-|[]].
    cbn [snd]. apply Nat.ltb_ge in E3. split; [exact E3|].
    rewrite length_firstn. lia.
  - destruct (length _ <? 3) eqn:E3; [intros []|]. intros [<-|[]].
    cbn [snd]. apply Nat.ltb_ge in E3, E40. lia.
Qed.

(** X13. The files of one document have pairwise distinct paths, so no
    chunk overwrites another. *)
Theorem output_paths_distinct (soup : option (list Session)) (path user : str) :
  NoDup (map fst (html_to_json soup path user)).
Proof.
  destruct soup as [sessions|]; simpl; [|constructor].
  unfold save_conversations. destruct (40 <? length _).
  - apply write_chunk_NoDup, range_NoDup.
  - destruct (length _ <? 3); repeat constructor. simpl. tauto.
Qed.

Lemma save_keeps_order (path : str) (convs : list Message) :
  exists tail,
    convs = concat (map snd (save_conversations path convs)) ++ tail
    /\ length tail <= 2.
Proof.
  unfold save_conversations. destruct (40 <? length convs) eqn:E40.
  - apply Nat.ltb_lt in E40. rewrite write_chunk_contents, range_40, map_map.
    destruct ((length convs + 39) / 40) as [|m] eqn:Em.
    { pose proof (chunks_cover (length convs)) as Hc. rewrite Em in Hc. lia. }
    assert (Hlo : m * 40 < length convs).
    { pose proof (@chunk_bound (length convs) m). rewrite Em in H. lia. }
    assert (Hhi : length convs <= S m * 40).
    { pose proof (chunks_cover (length convs)) as Hc. rewrite Em in Hc. exact Hc. }
    rewrite seq_S, map_app, filter_app, concat_app. cbn [map].
    change (0 + m) with m.
    rewrite forallb_filter_id.
    2:{ apply forallb_forall. intros c Hc. apply in_map_iff in Hc as (j & <- & Hj).
        apply in_seq in Hj. apply Nat.leb_le. rewrite piece_length. lia. }
    rewrite (concat_pieces 40 m convs).
    replace (firstn 40 (skipn (m * 40) convs)) with (skipn (m * 40) convs)
      by (symmetry; apply firstn_all2; rewrite length_skipn; lia).
    cbn [filter]. destruct (3 <=? length (skipn (m * 40) convs)) eqn:E3.
    + exists []. cbn [map concat]. rewrite !app_nil_r.
      rewrite firstn_skipn. split; [reflexivity | simpl; lia].
    + exists (skipn (m * 40) convs). cbn [map concat]. rewrite app_nil_r.
      rewrite firstn_skipn. split; [reflexivity|].
      apply Nat.leb_gt in E3. lia.
  - destruct (length convs <? 3) eqn:E3.
    + exists convs. split; [reflexivity|]. apply Nat.ltb_lt in E3. lia.
    + exists []. simpl. rewrite !app_nil_r. split; [reflexivity | lia].
Qed.

(** X14. The files of a document, read one after the other, give back
    the messages kept in the document, in order, up to a tail of at most
    two messages that is not written. *)
Theorem only_a_short_tail_is_lost (sessions : list Session) (path user : str) :
  exists tail,
    flat_map (session_conversations user) sessions
    = concat (map snd (html_to_json (Some sessions) path user)) ++ tail
    /\ length tail <= 2.
Proof. simpl. apply save_keeps_order. Qed.

End FileExtras.

(** ** Folders and paths *)

Lemma rfind_absent (c : char) (p : str) : ~ In c p -> rfind c p = None.
Proof.
  induction p as [|a p IH]; simpl; [reflexivity|]. intros H.
  rewrite IH by tauto.
  assert (E : chr_eqb a c = false) by (apply N.eqb_neq; tauto).
  rewrite E. reflexivity.
Qed.

Lemma rfind_last (c : char) (a b : str) :
  ~ In c b -> rfind c (a ++ c :: b) = Some (length a).
Proof.
  intros H. induction a as [|x a IH]; simpl.
  - rewrite rfind_absent by exact H. unfold chr_eqb. rewrite N.eqb_refl. reflexivity.
  - rewrite IH. reflexivity.
Qed.

Lemma rfind_In (c : char) (p : str) (i : nat) :
  rfind c p = Some i -> In c p.
Proof.
  revert i; induction p as [|a p IH]; intros i; simpl; [discriminate|].
  destruct (rfind c p) as [j|].
  - intros _. right. eapply IH. reflexivity.
  - destruct (chr_eqb a c) eqn:E; [|discriminate].
    apply chr_eqb_eq in E. auto.
Qed.

Lemma existsb_nondot (stem : str) :
  existsb (fun c => negb (chr_eqb c 46%N)) stem = true
  <-> exists c, In c stem /\ c <> 46%N.
Proof.
  rewrite existsb_exists. split; intros (c & Hc & H); exists c; split; auto.
  - apply negb_true_iff, N.eqb_neq in H. exact H.
  - apply negb_true_iff, N.eqb_neq. exact H.
Qed.

(** The name of the JSON file for [stem.html]. *)
Lemma splitext_html (stem : str) :
  ~ In 47%N stem ->
  fst (splitext (stem ++ lit ".html"))
  = if existsb (fun c => negb (chr_eqb c 46%N)) stem then stem
    else stem ++ lit ".html".
Proof.
  intros Hs. unfold splitext.
  assert (H47 : rfind 47%N (stem ++ lit ".html") = None).
  { apply rfind_absent. intros H. apply in_app_or in H as [H|H]; [tauto|].
    simpl in H. repeat (destruct H as [H|H]; [discriminate H|]). exact H. }
  assert (H46 : rfind 46%N (stem ++ lit ".html") = Some (length stem)).
  { change (lit ".html") with (46%N :: lit "html"). apply rfind_last.
    simpl. intros H. repeat (destruct H as [H|H]; [discriminate H|]). exact H. }
  rewrite H47, H46. simpl Nat.leb. rewrite Nat.sub_0_r. cbn [skipn andb].
  rewrite firstn_app, Nat.sub_diag, firstn_all. cbn [firstn]. rewrite app_nil_r.
  destruct (existsb _ stem); reflexivity.
Qed.

Lemma endswith_app (a b : str) : endswith (a ++ b) b = true.
Proof.
  unfold endswith. rewrite rev_app_distr. apply startswith_app.
Qed.

Lemma path_join_relative (a b : str) :
  ~ In 47%N b ->
  path_join a b
  = if negb (truthy a) || endswith a (lit "/") then a ++ b
    else a ++ lit "/" ++ b.
Proof.
  intros H. unfold path_join.
  assert (E : startswith b (lit "/") = false).
  { destruct b as [|c r]; [reflexivity|].
    change (startswith (c :: r) (lit "/")) with (chr_eqb 47%N c && startswith r []).
    apply andb_false_iff. left. apply N.eqb_neq. intros <-. apply H. left. reflexivity. }
  rewrite E. reflexivity.
Qed.

Section FolderExtras.
Context {U : Unicode} {D : Datetime}.

(** X15. [process_folder] reads only the listed names ending in
    [.html]: every file written comes from such a name, through
    [html_to_json] on the file of that name in the data folder; a file
    that cannot be read gives nothing; and the warning is given exactly
    when no listed name ends in [.html], in which case nothing is
    written. *)
Theorem only_html_files_are_processed (output_exists : bool)
    (listing : list str) (parse : str -> option (list Session))
    (data_folder output_folder user : str) :
  let run := process_folder output_exists listing parse data_folder
               output_folder user in
  (forall f, In f (written run) ->
     exists filename sessions,
       In filename listing /\ endswith filename (lit ".html") = true
       /\ parse (path_join data_folder filename) = Some sessions
       /\ In f (html_to_json (Some sessions)
                  (path_join output_folder (fst (splitext filename))) user))
  /\ (warned_no_html run = true <->
      forall filename, In filename listing ->
                       endswith filename (lit ".html") = false)
  /\ (warned_no_html run = true -> written run = []).
Proof.
  intros run. split; [|split].
  - intros f Hf. subst run. simpl in Hf.
    apply in_flat_map in Hf as (filename & Hin & Hf).
    unfold process_file in Hf.
    destruct (endswith filename (lit ".html")) eqn:E; [|destruct Hf].
    destruct (parse (path_join data_folder filename)) as [sessions|] eqn:Ep;
      [|destruct Hf].
    exists filename, sessions. auto.
  - subst run. simpl. rewrite negb_true_iff. split.
    + intros H filename Hin.
      destruct (endswith filename (lit ".html")) eqn:E; [|reflexivity].
      assert (Hex : existsb (fun f => endswith f (lit ".html")) listing = true)
        by (apply existsb_exists; eauto).
      congruence.
    + intros H. destruct (existsb _ listing) eqn:E; [|reflexivity].
      apply existsb_exists in E as (filename & Hin & E).
      rewrite (H filename Hin) in E. discriminate.
  - subst run. simpl. rewrite negb_true_iff. intros H.
    induction listing as [|filename listing IH]; [reflexivity|].
    simpl in H. apply orb_false_iff in H as [H1 H2].
    cbn [flat_map]. unfold process_file at 1. rewrite H1. simpl. apply IH, H2.
Qed.

(** X16. Two documents can write the same path: when the listing has
    [stem.html] with more than 40 messages kept and [stem0.html] with 3
    to 40, the first chunk of the one and the whole of the other both go
    to [stem0.json] in the output folder. *)
Theorem chunk_path_collision (output_exists : bool) (listing : list str)
    (parse : str -> option (list Session))
    (data_folder output_folder user stem : str)
    (long short : list Session) :
  ~ In 47%N stem -> (exists c, In c stem /\ c <> 46%N) ->
  In (stem ++ lit ".html") listing -> In (stem ++ lit "0.html") listing ->
  parse (path_join data_folder (stem ++ lit ".html")) = Some long ->
  parse (path_join data_folder (stem ++ lit "0.html")) = Some short ->
  40 < length (flat_map (session_conversations user) long) ->
  3 <= length (flat_map (session_conversations user) short) <= 40 ->
  let run := process_folder output_exists listing parse data_folder
               output_folder user in
  let path := path_join output_folder stem ++ lit "0.json" in
  In (path, firstn 40 (flat_map (session_conversations user) long))
    (written run)
  /\ In (path, flat_map (session_conversations user) short) (written run).
Proof.
  intros Hs Hd Hl1 Hl2 Hp1 Hp2 Hlong Hshort run path.
  assert (Hnd : existsb (fun c => negb (chr_eqb c 46%N)) stem = true)
    by (apply existsb_nondot; exact Hd).
  assert (Hs0 : ~ In 47%N (stem ++ lit "0")).
  { intros H. apply in_app_or in H as [H|[H|[]]]; [tauto | discriminate H]. }
  assert (Hjoin : path_join output_folder (stem ++ lit "0")
                  = path_join output_folder stem ++ lit "0").
  { rewrite !path_join_relative by assumption.
    destruct (negb (truthy output_folder) || endswith output_folder (lit "/"));
      rewrite !app_assoc; reflexivity. }
  split.
  - subst run. unfold process_folder. cbn [written].
    apply in_flat_map. exists (stem ++ lit ".html").
    split; [exact Hl1|]. unfold process_file.
    rewrite endswith_app, Hp1, splitext_html, Hnd by exact Hs.
    unfold html_to_json, save_conversations.
    apply Nat.ltb_lt in Hlong. rewrite Hlong. apply Nat.ltb_lt in Hlong.
    apply in_flat_map. exists 0. split.
    + rewrite range_40.
      destruct ((length (flat_map (session_conversations user) long) + 39) / 40)
        eqn:E; [|simpl; auto].
      pose proof (chunks_cover (length (flat_map (session_conversations user) long))) as Hcv.
      rewrite E in Hcv. lia.
    + unfold write_chunk. cbn [skipn].
      assert (E3 : (length (firstn 40 (flat_map (session_conversations user) long))
                    <? 3) = false).
      { apply Nat.ltb_ge. rewrite length_firstn. lia. }
      rewrite E3. left. reflexivity.
  - subst run. unfold process_folder. cbn [written].
    apply in_flat_map. exists (stem ++ lit "0.html").
    split; [exact Hl2|]. unfold process_file. rewrite Hp2.
    assert (En : stem ++ lit "0.html" = (stem ++ lit "0") ++ lit ".html")
      by (rewrite <- app_assoc; reflexivity).
    rewrite En, endswith_app, splitext_html by exact Hs0.
    rewrite existsb_app, Hnd. cbn [orb].
    unfold html_to_json, save_conversations.
    assert (E40 : (40 <? length (flat_map (session_conversations user) short))
                  = false)
      by (apply Nat.ltb_ge; lia).
    assert (E3 : (length (flat_map (session_conversations user) short) <? 3)
                 = false)
      by (apply Nat.ltb_ge; lia).
    rewrite E40, E3. left. subst path. rewrite Hjoin, <- app_assoc. reflexivity.
Qed.

End FolderExtras.

(** ** More on [clean_display_name] *)

Lemma dropwhile_all (p : char -> bool) (s : str) :
  Forall (fun c => p c = true) s -> dropwhile p s = [].
Proof.
  induction 1 as [|c s Hc _ IH]; simpl; [reflexivity|]. rewrite Hc. exact IH.
Qed.

Lemma sub_go_skip_all (r : regex) (repl s : str) :
  match_at false r [] = None -> sub_go r repl s (length s) = [].
Proof.
  intros H. induction s as [|c s IH]; simpl; [rewrite H; reflexivity | exact IH].
Qed.

Section CleanExtras.
Context {U : Unicode}.

Lemma strip_blank (s : str) :
  Forall (fun c => isspace c = true) s -> strip s = [].
Proof.
  intros H. unfold strip, strip_of, lstrip_of. rewrite dropwhile_all by exact H.
  reflexivity.
Qed.

(** X1. With tables as [punctuation_tables] says and an argument whose
    word characters are stable under lower-casing, [clean_display_name]
    returns the empty string or words of settled characters (word
    characters, not white space, their own lower case) separated by
    single spaces, with no space at either end. *)
Theorem clean_display_name_normal_form (s : str) :
  punctuation_tables -> Forall lower_stable s ->
  clean_display_name s = [] \/ words settled (clean_display_name s).
Proof.
  intros Hp Hs. destruct (clean_shape Hp Hs) as (u & -> & [ -> |Hu]).
  - left. reflexivity.
  - right. apply lower_go_words; [apply Hp | exact Hu].
Qed.

(** X2. A name made of white space only, the empty name included, is
    normalised to the empty string ([&] not being white space). *)
Theorem clean_display_name_blank (s : str) :
  isspace 38%N = false ->
  Forall (fun c => isspace c = true) s ->
  clean_display_name s = [].
Proof.
  intros H38 Hs. unfold clean_display_name.
  assert (Hn : Forall (fun c => c <> 38%N) s).
  { eapply Forall_impl; [|exact Hs]. intros c Hc ->. congruence. }
  change (lit "&lt;") with (38%N :: lit "lt;").
  change (lit "&gt;") with (38%N :: lit "gt;").
  rewrite replace_absent with (s := s) by exact Hn.
  rewrite replace_absent with (s := s) by exact Hn.
  rewrite strip_blank with (s := s) by exact Hs. reflexivity.
Qed.

Lemma replace_go_head (a : char) (old new : str) (d : char) (b : str) :
  d <> a ->
  replace (a :: old) new (d :: b) = d :: replace (a :: old) new b.
Proof.
  intros H. unfold replace. cbn [replace_go startswith].
  assert (E : chr_eqb a d = false) by (apply N.eqb_neq; congruence).
  rewrite E. reflexivity.
Qed.

Lemma match_leading_dash (d : char) (b : str) :
  d = 45%N \/ d = EM_DASH -> isspace d = false ->
  Forall (fun c => c <> 10%N) b ->
  match_at false suffix_re (d :: b) = Some ([], None).
Proof.
  intros Hd Hsp Hb. unfold match_at, suffix_re.
  rewrite exec_alt, exec_cat.
  assert (Hdash : only "-" d || chr_eqb d EM_DASH = true).
  { destruct Hd as [-> | ->]; reflexivity. }
  assert (Hdot : Forall (fun c => re_dot c = true) b).
  { eapply Forall_impl; [|exact Hb]. intros c Hc. unfold re_dot.
    apply negb_true_iff, N.eqb_neq, Hc. }
  simpl. unfold re_s at 1. rewrite Hsp. simpl. rewrite Hdash.
  rewrite (rep_greedy_all re_dot
             (fun s' => (s', @None str))).
  rewrite dropwhile_all by exact Hdot. reflexivity.
Qed.

(** X3. A name that begins with a hyphen or with U+2014 and holds no
    newline is normalised to the empty string: the pattern removes
    everything from the dash to the end of the line. *)
Theorem clean_display_name_leading_dash (d : char) (b : str) :
  d = 45%N \/ d = EM_DASH -> isspace d = false ->
  Forall (fun c => c <> 10%N) b ->
  clean_display_name (d :: b) = [].
Proof.
  intros Hd Hsp Hb. unfold clean_display_name.
  assert (Hd38 : d <> 38%N) by (destruct Hd as [-> | ->]; discriminate).
  change (lit "&lt;") with (38%N :: lit "lt;").
  change (lit "&gt;") with (38%N :: lit "gt;").
  rewrite !replace_go_head by exact Hd38.
  set (b2 := replace (38%N :: lit "gt;") (lit ">")
               (replace (38%N :: lit "lt;") (lit "<") b)).
  assert (Hb2 : Forall (fun c => c <> 10%N) b2).
  { apply Forall_forall. intros c Hc. subst b2.
    rewrite Forall_forall in Hb.
    apply replace_In in Hc as [Hc|[<-|[]]]; [|discriminate].
    apply replace_In in Hc as [Hc|[<-|[]]]; [auto | discriminate]. }
  unfold strip at 4. unfold strip_of, lstrip_of. cbn [dropwhile]. rewrite Hsp.
  rewrite rstrip_cons by exact Hsp.
  set (b3 := rstrip_of isspace b2).
  assert (Hb3 : Forall (fun c => c <> 10%N) b3).
  { apply Forall_forall. intros c Hc. subst b3.
    destruct (rstrip_prefix isspace b2) as [tail Ht].
    rewrite Forall_forall in Hb2. apply Hb2. rewrite Ht.
    apply in_or_app. left. exact Hc. }
  assert (Hsub : sub suffix_re [] (d :: b3) = []).
  { unfold sub. cbn [sub_go]. rewrite match_leading_dash by assumption.
    replace (length (d :: b3) - length (@nil char)) with (S (length b3))
      by (cbn [length]; lia).
    cbn [app]. apply sub_go_skip_all. reflexivity. }
  apply (f_equal (fun x => lower (strip (sub spaces_re (lit " ")
                                   (strip (sub special_re [] (strip x)))))))
    in Hsub.
  exact Hsub.
Qed.

End CleanExtras.

(** ** The first token *)

Lemma split_hd (sep : char) (s : str) :
  exists rest,
    s = hd [] (split sep s) ++ rest
    /\ ~ In sep (hd [] (split sep s))
    /\ (rest = [] \/ exists r, rest = sep :: r).
Proof.
  induction s as [|c s (rest & E & Hn & Hr)]; simpl.
  - exists []. auto.
  - destruct (chr_eqb c sep) eqn:Ec.
    + apply chr_eqb_eq in Ec. subst c. exists (sep :: s). simpl.
      split; [reflexivity|]. split; [tauto|]. right. eexists. reflexivity.
    + apply N.eqb_neq in Ec.
      destruct (split sep s) as [|w ws] eqn:Es; simpl in *.
      * exists s. split; [reflexivity|]. split; [tauto|].
        subst s. exact Hr.
      * exists rest. split; [congruence|]. split; [tauto | exact Hr].
Qed.

(** X19. The first-token key is the part of the name before its first
    space: a prefix of the name without a space in it, followed by a
    space or by nothing; it is the whole name when the name has no
    space, and it is non-empty when the name begins with another
    character. *)
Theorem first_word_is_leading_token (name : str) :
  (exists rest,
      name = first_word name ++ rest
      /\ (rest = [] \/ exists r, rest = 32%N :: r))
  /\ ~ In 32%N (first_word name)
  /\ (~ In 32%N name -> first_word name = name)
  /\ (forall c r, name = c :: r -> c <> 32%N -> first_word name <> []).
Proof.
  unfold first_word. destruct name as [|c0 r0] eqn:En.
  { simpl. repeat split; try tauto; try discriminate. exists []. auto. }
  rewrite <- En. assert (Ht : truthy name = true) by (subst; reflexivity).
  rewrite Ht. destruct (split_hd 32%N name) as (rest & E & Hn & Hr).
  split; [eauto|]. split; [exact Hn|]. split.
  - intros Hno. destruct Hr as [-> | [r ->]].
    + rewrite app_nil_r in E. congruence.
    + exfalso. apply Hno. rewrite E. apply in_or_app. right. left. reflexivity.
  - intros c r Ec Hc Hw. rewrite Hw in E. simpl in E.
    destruct Hr as [-> | [r' ->]]; congruence.
Qed.

(** ** The matcher against what a pattern matches *)

Section MatcherSound.
Variable A : Type.

Lemma rep_greedy_sound (p : char -> bool) (s : str) :
  forall lo hi (k : str -> option A) x,
    rep_greedy p s lo hi k = Some x ->
    exists w s',
      s = w ++ s' /\ Forall (fun c => p c = true) w /\ lo <= length w
      /\ (forall h, hi = Some h -> length w <= h) /\ k s' = Some x.
Proof.
  induction s as [|c s IH]; intros lo hi k x.
  - simpl. destruct lo; [|discriminate]. intros H. exists [], [].
    repeat split; auto. intros h _. simpl. lia.
  - cbn [rep_greedy].
    assert (Hstop : match lo with O => k (c :: s) | S _ => None end = Some x ->
              exists w s',
                c :: s = w ++ s' /\ Forall (fun c => p c = true) w
                /\ lo <= length w
                /\ (forall h, hi = Some h -> length w <= h) /\ k s' = Some x).
    { destruct lo; [|discriminate]. intros H. exists [], (c :: s).
      repeat split; auto. intros h _. simpl. lia. }
    destruct (p c) eqn:Ep; [|exact Hstop].
    destruct (may_repeat hi) eqn:Em; [|exact Hstop]. cbn [andb].
    destruct (rep_greedy p s (pred lo) (option_map pred hi) k) as [r|] eqn:E;
      [|exact Hstop].
    intros [= ->]. apply IH in E as (w & s' & -> & Hw & Hlo & Hhi & Hk).
    exists (c :: w), s'. split; [reflexivity|]. split; [constructor; assumption|].
    split; [simpl; lia|]. split; [|exact Hk].
    intros h ->. destruct h as [|h]; [discriminate Em|].
    specialize (Hhi h eq_refl). simpl. lia.
Qed.

Lemma rep_lazy_sound (p : char -> bool) (s : str) :
  forall lo hi (k : str -> option A) x,
    rep_lazy p s lo hi k = Some x ->
    exists w s',
      s = w ++ s' /\ Forall (fun c => p c = true) w /\ lo <= length w
      /\ (forall h, hi = Some h -> length w <= h) /\ k s' = Some x.
Proof.
  induction s as [|c s IH]; intros lo hi k x.
  - simpl. destruct lo; [|discriminate]. destruct (k []) eqn:E; [|discriminate].
    intros [= ->]. exists [], []. repeat split; auto. intros h _. simpl. lia.
  - cbn [rep_lazy].
    destruct (match lo with O => k (c :: s) | S _ => None end) as [r|] eqn:E.
    + destruct lo; [|discriminate]. intros [= ->]. exists [], (c :: s).
      repeat split; auto. intros h _. simpl. lia.
    + destruct (p c) eqn:Ep; [|discriminate].
      destruct (may_repeat hi) eqn:Em; [|discriminate]. cbn [andb].
      intros H. apply IH in H as (w & s' & -> & Hw & Hlo & Hhi & Hk).
      exists (c :: w), s'. split; [reflexivity|]. split; [constructor; assumption|].
      split; [simpl; lia|]. split; [|exact Hk].
      intros h ->. destruct h as [|h]; [discriminate Em|].
      specialize (Hhi h eq_refl). simpl. lia.
Qed.

(** What the matcher accepts, the pattern matches. *)
Lemma exec_sound (r : regex) :
  forall s g (k : str -> option str -> option A) x,
    exec r s g k = Some x ->
    exists w s' g', s = w ++ s' /\ matches r w s' /\ k s' g' = Some x.
Proof.
  induction r as [|p|greedy lo hi p| |r1 IH1 r2 IH2|r1 IH1 r2 IH2|r1 IH1];
    intros s g k x; simpl.
  - intros H. exists [], s, g. repeat split; [constructor | exact H].
  - destruct s as [|c s]; [discriminate|]. destruct (p c) eqn:E; [|discriminate].
    intros H. exists [c], s, g. repeat split; [constructor; exact E | exact H].
  - intros H.
    assert (Hs : exists w s',
               s = w ++ s' /\ Forall (fun c => p c = true) w /\ lo <= length w
               /\ (forall h, hi = Some h -> length w <= h) /\ k s' g = Some x).
    { destruct greedy; [apply rep_greedy_sound in H | apply rep_lazy_sound in H];
        exact H. }
    destruct Hs as (w & s' & -> & Hw & Hlo & Hhi & Hk).
    exists w, s', g. repeat split; [constructor; assumption | exact Hk].
  - destruct (at_end s) eqn:E; [|discriminate].
    intros H. exists [], s, g. repeat split; [constructor; exact E | exact H].
  - intros H. apply IH1 in H as (w1 & s1 & g1 & -> & M1 & H).
    apply IH2 in H as (w2 & s2 & g2 & -> & M2 & H).
    exists (w1 ++ w2), s2, g2. rewrite <- app_assoc.
    repeat split; [constructor; assumption | exact H].
  - destruct (exec r1 s g k) as [y|] eqn:E.
    + intros [= ->]. apply IH1 in E as (w & s' & g' & -> & M & H).
      exists w, s', g'. repeat split; [apply matches_alt_l; exact M | exact H].
    + intros H. apply IH2 in H as (w & s' & g' & -> & M & H).
      exists w, s', g'. repeat split; [apply matches_alt_r; exact M | exact H].
  - intros H. apply IH1 in H as (w & s' & g' & -> & M & H).
    exists w, s', (Some (firstn (length (w ++ s') - length s') (w ++ s'))).
    repeat split; [constructor; exact M | exact H].
Qed.

End MatcherSound.

Lemma firstn_prefix (X : Type) (w s : list X) :
  firstn (length (w ++ s) - length s) (w ++ s) = w.
Proof.
  rewrite length_app, Nat.add_sub, firstn_app, Nat.sub_diag, firstn_all.
  simpl. apply app_nil_r.
Qed.

Lemma match_at_sound (r : regex) (s rest : str) (g : option str) :
  match_at false r s = Some (rest, g) ->
  exists w, s = w ++ rest /\ matches r w rest.
Proof.
  unfold match_at. intros H.
  apply exec_sound in H as (w & s' & g' & -> & M & H).
  simpl in H. injection H as <- _. eauto.
Qed.

Lemma search_go_eq (r : regex) (before s : str) :
  search_go r before s =
  match match_at false r s with
  | Some (rest, g) =>
      Some {| m_before := rev before;
              m_group0 := firstn (length s - length rest) s;
              m_group1 := g;
              m_after := rest |}
  | None =>
      match s with
      | [] => None
      | c :: s' => search_go r (c :: before) s'
      end
  end.
Proof. destruct s; reflexivity. Qed.

Lemma match_at_cut (r : regex) (s rest : str) (g : option str) :
  match_at false r s = Some (rest, g) ->
  s = firstn (length s - length rest) s ++ rest
  /\ match_at false r (firstn (length s - length rest) s ++ rest)
     = Some (rest, g).
Proof.
  intros H. pose proof H as H'. apply match_at_sound in H' as (w & -> & _).
  rewrite firstn_prefix. auto.
Qed.

(** A match found by [re.search] cuts the text into what precedes it,
    what it matches and what follows. *)
Lemma search_go_cut (r : regex) (s : str) :
  forall before m,
    search_go r before s = Some m ->
    rev before ++ s = m_before m ++ m_group0 m ++ m_after m
    /\ match_at false r (m_group0 m ++ m_after m)
       = Some (m_after m, m_group1 m).
Proof.
  induction s as [|c s IH]; intros before m H; rewrite search_go_eq in H;
    destruct (match_at false r _) as [[rest g]|] eqn:E;
    try discriminate H.
  - injection H as <-. cbn [m_before m_group0 m_after m_group1].
    apply match_at_cut in E as [E1 E2]. split; [f_equal; exact E1 | exact E2].
  - injection H as <-. cbn [m_before m_group0 m_after m_group1].
    apply match_at_cut in E as [E1 E2]. split; [f_equal; exact E1 | exact E2].
  - apply IH in H as [H1 H2]. split; [|exact H2].
    rewrite <- H1. simpl. rewrite <- app_assoc. reflexivity.
Qed.

Lemma except_spec (c : char) : except ")" c = true <-> c <> 41%N.
Proof.
  unfold except, only, lit. simpl. rewrite andb_true_r, negb_true_iff.
  apply N.eqb_neq.
Qed.

Lemma only_spec (a : String.string) (c d : char) :
  lit a = [d] -> only a c = true -> c = d.
Proof.
  unfold only. intros ->. simpl. rewrite andb_true_r. apply chr_eqb_eq.
Qed.

Lemma matches_chr_inv (p : char -> bool) (w rest : str) :
  matches (Chr p) w rest -> exists c, w = [c] /\ p c = true.
Proof. inversion 1; subst. eauto. Qed.

Lemma matches_plus_inv (p : char -> bool) (w rest : str) :
  matches (Plus p) w rest -> w <> [] /\ Forall (fun c => p c = true) w.
Proof.
  inversion 1; subst. split; [|assumption].
  destruct w; [simpl in *; lia | discriminate].
Qed.

Lemma matches_cat_inv (r1 r2 : regex) (w rest : str) :
  matches (r1 +> r2) w rest ->
  exists w1 w2, w = w1 ++ w2 /\ matches r1 w1 (w2 ++ rest) /\ matches r2 w2 rest.
Proof. inversion 1; subst. eauto. Qed.

(** X18. The identifier taken from a roster entry is e-mail shaped and
    stands in parentheses in the entry: the entry is some text, [(], the
    identifier, [)], and the rest; the identifier holds no [)] and is a
    non-empty part, [@], a non-empty part, [.], and a non-empty part. *)
Theorem identifier_is_email_shaped (full_li_text : str) (m : match_object) :
  search identifier_re full_li_text = Some m ->
  full_li_text
  = m_before m ++ lit "(" ++ group1 m ++ lit ")" ++ m_after m
  /\ Forall (fun c => c <> 41%N) (group1 m)
  /\ exists a b c,
       group1 m = a ++ lit "@" ++ b ++ lit "." ++ c
       /\ a <> [] /\ b <> [] /\ c <> [].
Proof.
  intros H. apply search_go_cut in H as [Hcut Hm]. simpl in Hcut.
  unfold match_at, identifier_re in Hm.
  set (R := Plus (except ")") +> Chr (only "@") +> Plus (except ")")
            +> Chr (only ".") +> Plus (except ")")) in Hm.
  rewrite exec_cat in Hm. apply exec_sound in Hm as (w1 & s1 & g1 & E1 & M1 & Hm).
  apply matches_chr_inv in M1 as (c1 & -> & Hc1).
  apply only_spec with (d := 40%N) in Hc1; [|reflexivity]. subst c1.
  rewrite exec_cat, exec_grp in Hm.
  apply exec_sound in Hm as (w & s2 & g2 & -> & MR & Hm).
  rewrite firstn_prefix in Hm. simpl in Hm.
  destruct s2 as [|c2 s2]; [discriminate|].
  destruct (only ")" c2) eqn:Hc2; [|discriminate].
  apply only_spec with (d := 41%N) in Hc2; [|reflexivity]. subst c2.
  injection Hm as Hrest Hg.
  assert (Eg : group1 m = w) by (unfold group1; rewrite <- Hg; reflexivity).
  assert (E0 : m_group0 m = lit "(" ++ w ++ lit ")").
  { apply (app_inv_tail (m_after m)). rewrite E1, Hrest, <- !app_assoc.
    reflexivity. }
  rewrite Eg. split; [|split].
  - rewrite Hcut, E0. rewrite <- !app_assoc. reflexivity.
  - subst R.
    apply matches_cat_inv in MR as (a & w' & -> & Ma & MR).
    apply matches_cat_inv in MR as (x1 & w'' & -> & Mx1 & MR).
    apply matches_cat_inv in MR as (b & w3 & -> & Mb & MR).
    apply matches_cat_inv in MR as (x2 & c & -> & Mx2 & Mc).
    apply matches_plus_inv in Ma as [_ Ha], Mb as [_ Hb], Mc as [_ Hc].
    apply matches_chr_inv in Mx1 as (y1 & -> & Hy1), Mx2 as (y2 & -> & Hy2).
    apply only_spec with (d := 64%N) in Hy1; [|reflexivity]. apply only_spec with (d := 46%N) in Hy2; [|reflexivity].
    subst y1 y2.
    repeat (apply Forall_app; split);
      try (eapply Forall_impl; [|eassumption]; intros ? ?; apply except_spec; assumption);
      repeat constructor; discriminate.
  - subst R.
    apply matches_cat_inv in MR as (a & w' & -> & Ma & MR).
    apply matches_cat_inv in MR as (x1 & w'' & -> & Mx1 & MR).
    apply matches_cat_inv in MR as (b & w3 & -> & Mb & MR).
    apply matches_cat_inv in MR as (x2 & c & -> & Mx2 & Mc).
    apply matches_plus_inv in Ma as [Ha _], Mb as [Hb _], Mc as [Hc _].
    apply matches_chr_inv in Mx1 as (y1 & -> & Hy1), Mx2 as (y2 & -> & Hy2).
    apply only_spec with (d := 64%N) in Hy1; [|reflexivity]. apply only_spec with (d := 46%N) in Hy2; [|reflexivity].
    subst y1 y2. exists a, b, c. auto.
Qed.

(** ** Where the files go *)

Lemma str_of_uint_digits (d : Decimal.uint) : Forall is_digit (str_of_uint d).
Proof.
  induction d; simpl; constructor; try assumption; unfold is_digit; lia.
Qed.

Lemma splitext_fst_In (p : str) (c : char) :
  In c (fst (splitext p)) -> In c p.
Proof.
  unfold splitext. destruct (rfind 46%N p) as [dotIndex|]; [|auto].
  destruct (_ && _); simpl; [|auto]. apply In_firstn.
Qed.

Section MainExtras.
Context {U : Unicode} {D : Datetime}.

(** The path of a file is the path given, an offset or nothing, and
    [.json]. *)
Lemma html_to_json_names (soup : option (list Session)) (path user : str)
    (f : file) :
  In f (html_to_json soup path user) ->
  exists suffix, fst f = path ++ suffix ++ lit ".json" /\ Forall is_digit suffix.
Proof.
  destruct soup as [sessions|]; simpl; [|tauto].
  unfold save_conversations. destruct (40 <? length _).
  - intros H. apply in_flat_map in H as (i & _ & H). unfold write_chunk in H.
    destruct (length _ <? 3); [destruct H|]. destruct H as [<-|[]].
    exists (str_of_nat i). split; [reflexivity | apply str_of_uint_digits].
  - destruct (length _ <? 3); [intros []|]. intros [<-|[]].
    exists []. split; [reflexivity | constructor].
Qed.

(** X17. A run of the script takes place only with a non-empty self
    identifier, and on a POSIX system, whose [os.path.join] and
    [os.path.splitext] are the [path_join] and [splitext] above, it
    writes only inside its output folder: when the names listed hold no
    [/] (as the names of a directory listing do), every path written is
    ["data/preprocessed/"] followed by a name without [/] that ends in
    [.json]. *)
Theorem main_writes_in_output_folder (user : str) (output_exists : bool)
    (listing : list str) (parse : str -> option (list Session)) (run : Run) :
  main user output_exists listing parse = Some run ->
  user <> []
  /\ ((forall name, In name listing -> ~ In 47%N name) ->
      forall f, In f (written run) ->
        exists base,
          fst f = lit "data/preprocessed/" ++ base
          /\ ~ In 47%N base
          /\ endswith (fst f) (lit ".json") = true).
Proof.
  unfold main. destruct user as [|u0 user']; [discriminate|].
  cbn [truthy negb]. intros [= <-]. split; [discriminate|]. intros Hl f Hf.
  unfold process_folder in Hf. cbn [written] in Hf.
  apply in_flat_map in Hf as (name & Hin & Hf). unfold process_file in Hf.
  destruct (endswith name (lit ".html")); [|destruct Hf].
  assert (Hroot : ~ In 47%N (fst (splitext name))).
  { intros H. apply splitext_fst_In in H. exact (Hl name Hin H). }
  apply html_to_json_names in Hf as (suffix & E & Hd).
  rewrite path_join_relative in E by exact Hroot.
  change (negb (truthy (lit "data/preprocessed"))
          || endswith (lit "data/preprocessed") (lit "/")) with false in E.
  cbv iota in E.
  exists (fst (splitext name) ++ suffix ++ lit ".json"). split; [|split].
  - rewrite E. rewrite <- !app_assoc. reflexivity.
  - intros H. apply in_app_or in H as [H|H]; [tauto|].
    apply in_app_or in H as [H|H].
    + rewrite Forall_forall in Hd. specialize (Hd _ H). unfold is_digit in Hd. lia.
    + simpl in H. repeat (destruct H as [H|H]; [discriminate H|]). exact H.
  - rewrite E, !app_assoc. apply endswith_app.
Qed.

Lemma two_digits_shape (n : N) :
  exists a b, two_digits n = [a; b] /\ is_digit a /\ is_digit b.
Proof.
  unfold two_digits, is_digit. eexists _, _. split; [reflexivity|].
  assert (H1 : ((n / 10) mod 10 < 10)%N) by (apply N.mod_upper_bound; lia).
  assert (H2 : (n mod 10 < 10)%N) by (apply N.mod_upper_bound; lia).
  revert H1 H2. generalize ((n / 10) mod 10)%N (n mod 10)%N. intros a b H1 H2.
  lia.
Qed.

(** The date of a session is the sentinel or eight characters, two
    digits, a dot, two digits, a dot and two digits. *)
Theorem session_date_shape (session_date_tag : option str) :
  session_date_of session_date_tag = UNKNOWN_DATE
  \/ exists y1 y2 m1 m2 d1 d2,
       session_date_of session_date_tag = [y1; y2; 46; m1; m2; 46; d1; d2]%N
       /\ Forall is_digit [y1; y2; m1; m2; d1; d2].
Proof.
  unfold session_date_of. destruct session_date_tag as [text|]; [|auto].
  destruct (search date_re text) as [mo|]; [|auto].
  destruct (strptime_dBY _) as [d|]; [|auto]. right.
  unfold strftime_ymd.
  destruct (two_digits_shape (year d)) as (y1 & y2 & -> & Hy1 & Hy2).
  destruct (two_digits_shape (month d)) as (m1 & m2 & -> & Hm1 & Hm2).
  destruct (two_digits_shape (day d)) as (d1 & d2 & -> & Hd1 & Hd2).
  exists y1, y2, m1, m2, d1, d2. split; [reflexivity|].
  repeat (apply Forall_cons; [assumption|]). apply Forall_nil.
Qed.

End MainExtras.

(** ** The month names *)

Lemma startswith_framed (old w post : str) :
  Forall (fun c => ~ In c old) post ->
  old <> [] -> startswith (w ++ post) old = startswith w old.
Proof.
  revert old. induction w as [|c w IH]; intros old Hp Ho.
  - destruct old as [|a old]; [congruence|]. simpl.
    destruct post as [|p post]; [reflexivity|]. simpl.
    apply Forall_inv in Hp. 
    assert (E : chr_eqb a p = false).
    { apply N.eqb_neq. intros ->. apply Hp. left. reflexivity. }
    rewrite E. reflexivity.
  - destruct old as [|a old]; [congruence|]. cbn [app startswith].
    destruct old as [|b old].
    + rewrite !startswith_nil. reflexivity.
    + rewrite IH; [reflexivity| |discriminate].
      eapply Forall_impl; [|exact Hp]. intros x Hx Hin. apply Hx. right. exact Hin.
Qed.

Lemma startswith_length (s old : str) :
  startswith s old = true -> s = old ++ skipn (length old) s.
Proof.
  revert old. induction s as [|c s IH]; intros [|a old] H; try reflexivity.
  - discriminate H.
  - simpl in H. apply andb_true_iff in H as [E H]. apply N.eqb_eq in E.
    subst c. simpl. f_equal. apply IH, H.
Qed.

Lemma replace_go_skip (old new u s : str) :
  replace_go old new (u ++ s) (length u) = replace_go old new s 0.
Proof.
  induction u as [|c u IH]; [reflexivity|]. exact IH.
Qed.

Lemma replace_go_untouched (old new post : str) :
  old <> [] -> Forall (fun c => ~ In c old) post ->
  replace_go old new post 0 = post.
Proof.
  intros Ho. destruct old as [|a old]; [congruence|].
  induction 1 as [|p post Hp _ IH]; [reflexivity|].
  cbn [replace_go startswith].
  assert (E : chr_eqb a p = false).
  { apply N.eqb_neq. intros ->. apply Hp. left. reflexivity. }
  rewrite E. simpl. f_equal. exact IH.
Qed.

Lemma replace_go_framed_r (old new post : str) :
  old <> [] -> Forall (fun c => ~ In c old) post ->
  forall n w, length w <= n ->
    replace_go old new (w ++ post) 0 = replace_go old new w 0 ++ post.
Proof.
  intros Ho Hp. induction n as [|n IH]; intros w Hw.
  - destruct w; [|simpl in Hw; lia]. simpl.
    apply replace_go_untouched; assumption.
  - destruct w as [|c w]; [apply replace_go_untouched; assumption|].
    cbn [app replace_go].
    change (c :: w ++ post) with ((c :: w) ++ post).
    rewrite startswith_framed by assumption.
    destruct (startswith (c :: w) old) eqn:E.
    + apply startswith_length in E.
      destruct old as [|a old]; [congruence|].
      cbn [length skipn app] in E. injection E as _ E.
      replace (length (a :: old) - 1) with (length old) by (cbn [length]; lia).
      rewrite E, <- app_assoc, !replace_go_skip, <- app_assoc. f_equal.
      apply IH. simpl in Hw. rewrite length_skipn. lia.
    + simpl. f_equal. apply IH. simpl in Hw. lia.
Qed.

Lemma replace_framed (old new pre w post : str) :
  old <> [] ->
  Forall (fun c => ~ In c old) pre -> Forall (fun c => ~ In c old) post ->
  replace old new (pre ++ w ++ post) = pre ++ replace old new w ++ post.
Proof.
  intros Ho Hpre Hpost. destruct old as [|a old]; [congruence|].
  unfold replace. induction Hpre as [|p pre Hp _ IH].
  - simpl. apply replace_go_framed_r with (n := length w); auto.
  - cbn [app replace_go startswith].
    assert (E : chr_eqb a p = false).
    { apply N.eqb_neq. intros ->. apply Hp. left. reflexivity. }
    rewrite E. simpl. f_equal. exact IH.
Qed.

Lemma translate_framed (pre w post : str) :
  Forall (fun c => ~ In c month_letters) pre ->
  Forall (fun c => ~ In c month_letters) post ->
  translate_months (pre ++ w ++ post) = pre ++ translate_months w ++ post.
Proof.
  intros Hpre Hpost. unfold translate_months.
  assert (H : forall months, incl (concat (map fst months)) month_letters ->
            Forall (fun fr_en => fst fr_en <> []) months ->
            forall w,
            fold_left (fun date_part fr_en =>
                         replace (fst fr_en) (snd fr_en) date_part)
              months (pre ++ w ++ post)
            = pre ++ fold_left (fun date_part fr_en =>
                         replace (fst fr_en) (snd fr_en) date_part)
              months w ++ post).
  { induction months as [|[fr en] months IH]; intros Hi Hn w0; [reflexivity|].
    cbn [fold_left fst snd]. cbn [map concat fst] in Hi.
    rewrite replace_framed.
    - apply IH.
      + intros x Hx. apply Hi, in_or_app. right. exact Hx.
      + apply Forall_inv_tail in Hn. exact Hn.
    - apply Forall_inv in Hn. exact Hn.
    - eapply Forall_impl; [|exact Hpre]. intros x Hx Hin. apply Hx, Hi, in_or_app.
      left. exact Hin.
    - eapply Forall_impl; [|exact Hpost]. intros x Hx Hin. apply Hx, Hi, in_or_app.
      left. exact Hin. }
  apply H.
  - intros x Hx. exact Hx.
  - repeat (apply Forall_cons; [discriminate|]). apply Forall_nil.
Qed.

(** X20. The loop over the French month names translates a name
    wherever the text around it holds no character of such a name: each
    French name gives its English name, no replacement undoes or extends
    another, and the English name itself passes unchanged. *)
Theorem french_months_translated (pre post fr en : str) :
  In (fr, en) french_months ->
  Forall (fun c => ~ In c month_letters) pre ->
  Forall (fun c => ~ In c month_letters) post ->
  translate_months (pre ++ fr ++ post) = pre ++ en ++ post
  /\ translate_months (pre ++ en ++ post) = pre ++ en ++ post.
Proof.
  intros Hin Hpre Hpost. rewrite !translate_framed by assumption.
  assert (E : translate_months fr = en /\ translate_months en = en).
  { unfold french_months in Hin. simpl in Hin.
    repeat (destruct Hin as [[= <- <-]|Hin]; [split; reflexivity|]).
    destruct Hin. }
  destruct E as [-> ->]. split; reflexivity.
Qed.

(** ** The further properties at concrete inputs *)

Lemma normal_form_witness :
  clean_display_name (lit "  Bob &lt;3 - away [work] :") = []
  \/ words settled (clean_display_name (lit "  Bob &lt;3 - away [work] :")).
Proof.
  apply (@clean_display_name_normal_form latin1
           (lit "  Bob &lt;3 - away [work] :") latin1_punctuation).
  apply stable_checked. reflexivity.
Defined.

Lemma blank_name_witness : clean_display_name (lit "   ") = [].
Proof.
  apply (@clean_display_name_blank latin1 (lit "   ")); [reflexivity|].
  repeat constructor.
Defined.

Lemma leading_dash_witness : clean_display_name (lit "-=Bob=- :)") = [].
Proof.
  apply (@clean_display_name_leading_dash latin1 45%N (lit "=Bob=- :)"));
    [left; reflexivity | reflexivity|].
  repeat (constructor; [discriminate|]). constructor.
Defined.

Lemma registered_name_witness :
  dict_getitem (build_participant_map (Some [lit "Bob"; jane_entry]))
    (lit "jane doe") = Some jane_identifier
  /\ forall sender,
       sender_name_v2 sender = lit "jane doe" ->
       identify (build_participant_map (Some [lit "Bob"; jane_entry])) sender
       = Some jane_identifier.
Proof.
  apply (@registered_name_is_recognised latin1 [lit "Bob"] [] jane_entry
           jane_match (lit "jane doe")).
  - reflexivity.
  - right. left. reflexivity.
  - discriminate.
  - reflexivity.
Defined.

Lemma attribution_from_roster_witness :
  exists roster li,
    Some [jane_entry] = Some roster /\ In li roster
    /\ jane_identifier = entry_identifier li.
Proof.
  apply (@attribution_from_roster latin1 (Some [jane_entry]) (lit "Jane D.")
           jane_identifier).
  reflexivity.
Defined.

Lemma no_roster_witness :
  Forall (fun msg => from msg = lit "human")
    (session_conversations jane_identifier
       {| session_h2 := None; session_ul := None;
          session_tr := [sample_row; bob_row] |}).
Proof.
  apply (@no_roster_all_human latin1 c_locale jane_identifier
           {| session_h2 := None; session_ul := None;
              session_tr := [sample_row; bob_row] |}).
  left. reflexivity.
Defined.

Lemma self_identifier_witness :
  html_to_json (Some sample_document) (lit "out/chat")
    (lit "Jane.Doe@Example.COM")
  = html_to_json (Some sample_document) (lit "out/chat") jane_identifier.
Proof.
  apply (@self_identifier_up_to_case latin1 c_locale (Some sample_document)
           (lit "out/chat") (lit "Jane.Doe@Example.COM") jane_identifier).
  reflexivity.
Defined.

Lemma output_file_sizes_witness :
  3 <= length (snd (lit "out/chat40.json",
                    repeat {| from := lit "gpt"; value := lit "hello" |} 3))
  <= 40.
Proof.
  apply (@output_file_sizes latin1 c_locale
           (Some [long_session; sample_session; sample_session])
           (lit "out/chat") jane_identifier
           (lit "out/chat40.json",
            repeat {| from := lit "gpt"; value := lit "hello" |} 3)).
  right. left. reflexivity.
Defined.

Lemma chunk_path_collision_witness :
  let run := process_folder false sample_listing sample_parse
               (lit "data/raw_data") (lit "data/preprocessed") jane_identifier in
  let path := path_join (lit "data/preprocessed") (lit "chat") ++ lit "0.json" in
  In (path,
      firstn 40 (flat_map (session_conversations jane_identifier) [long_session]))
    (written run)
  /\ In (path, flat_map (session_conversations jane_identifier) sample_document)
       (written run).
Proof.
  apply (@chunk_path_collision latin1 c_locale false sample_listing sample_parse
           (lit "data/raw_data") (lit "data/preprocessed") jane_identifier
           (lit "chat") [long_session] sample_document).
  - intros H. vm_compute in H. intuition discriminate.
  - exists 99%N. split; [left; reflexivity | discriminate].
  - left. reflexivity.
  - right. right. left. reflexivity.
  - reflexivity.
  - reflexivity.
  - apply Nat.ltb_lt. reflexivity.
  - split; apply Nat.leb_le; reflexivity.
Defined.

Lemma main_witness :
  jane_identifier <> []
  /\ exists base,
       fst (lit "data/preprocessed/chat0.json",
            firstn 40 (flat_map (session_conversations jane_identifier)
                         [long_session]))
       = lit "data/preprocessed/" ++ base
       /\ ~ In 47%N base
       /\ endswith
            (fst (lit "data/preprocessed/chat0.json",
                  firstn 40 (flat_map (session_conversations jane_identifier)
                               [long_session])))
            (lit ".json") = true.
Proof.
  destruct (@main_writes_in_output_folder latin1 c_locale jane_identifier false
              sample_listing sample_parse
              (process_folder false sample_listing sample_parse
                 (lit "data/raw_data") (lit "data/preprocessed")
                 jane_identifier) eq_refl) as [Huser Hwritten].
  split; [exact Huser|]. apply Hwritten.
  - intros name Hin H.
    destruct Hin as [<-|[<-|[<-|[]]]]; vm_compute in H; intuition discriminate.
  - left. reflexivity.
Defined.

Lemma identifier_shape_witness :
  jane_entry
  = m_before jane_match ++ lit "(" ++ group1 jane_match ++ lit ")"
    ++ m_after jane_match
  /\ Forall (fun c => c <> 41%N) (group1 jane_match)
  /\ exists a b c,
       group1 jane_match = a ++ lit "@" ++ b ++ lit "." ++ c
       /\ a <> [] /\ b <> [] /\ c <> [].
Proof.
  apply (@identifier_is_email_shaped jane_entry jane_match).
  reflexivity.
Defined.

Lemma french_month_witness :
  translate_months (lit "4 " ++ lit "mars" ++ lit " 2003")
  = lit "4 " ++ lit "March" ++ lit " 2003"
  /\ translate_months (lit "4 " ++ lit "March" ++ lit " 2003")
     = lit "4 " ++ lit "March" ++ lit " 2003".
Proof.
  apply (@french_months_translated (lit "4 ") (lit " 2003") (lit "mars")
           (lit "March")).
  - right. right. left. reflexivity.
  - repeat (apply Forall_cons;
            [intros H; vm_compute in H; intuition discriminate|]).
    apply Forall_nil.
  - repeat (apply Forall_cons;
            [intros H; vm_compute in H; intuition discriminate|]).
    apply Forall_nil.
Defined.
